(** * Sudoku screen: solver, puzzle loader and session controller

    A shallow embedding of [src/screens/SudokuScreen.tsx].

    - JavaScript numbers held by the grids are [number]: an integer or [NaN]
      ([parseInt] of a symbol that is no digit).
    - [number[][]] and [Cell[][]] are lists of lists, read with stdpp's
      lookup; a read outside the array is [None] (JavaScript's [undefined]).
    - [solve] mutates its argument in place: the embedding threads the grid
      through the search and returns it next to the boolean.
    - React state is the record [Session]; every event handler is one
      function from [Session] to [Session]. *)

From Stdlib Require Import ZArith Lia Bool Ascii String.
From stdpp Require Import base tactics option list numbers strings.

Local Open Scope Z_scope.

(** * Part I: the program *)

(** ** Types of the source *)

Inductive Difficulty := easy | medium | hard.
Inductive GameStatus := menu | playing | solved.

(** A JavaScript number as the grids hold it. *)
Inductive number := Num (z : Z) | NaN.

(** [a === b] on numbers: [NaN] is equal to nothing, itself included. *)
Definition strict_eq (a b : number) : bool :=
  match a, b with
  | Num x, Num y => x =? y
  | _, _ => false
  end.

Record Cell := mkCell {
  value : option number;
  isGiven : bool;
  isInvalid : bool
}.

Abbreviation Grid := (list (list number)).
Abbreviation Board := (list (list Cell)).

Record Position := mkPosition { row : nat; col : nat }.

(** ** Grid access *)

(** [board[r][c]]; [None] is [undefined]. *)
Definition at_ {A} (board : list (list A)) (r c : nat) : option A :=
  match board !! r with
  | Some line => line !! c
  | None => None
  end.

(** [board[r][c] = v].  The source writes inside the 9x9 array only;
    outside it the embedding leaves the board as it is. *)
Definition put {A} (board : list (list A)) (r c : nat) (v : A) : list (list A) :=
  match board !! r with
  | Some line => <[r := <[c := v]> line]> board
  | None => board
  end.

(** [board[r][c] === num] *)
Definition holds (board : Grid) (r c : nat) (num : Z) : bool :=
  match at_ board r c with
  | Some x => strict_eq x (Num num)
  | None => false
  end.

(** ** The solver: [isValid], [findBestCell], [solve] *)

Definition isValid (board : Grid) (row col : nat) (num : Z) : bool :=
  forallb (fun i => negb (holds board row i num) && negb (holds board i col num))
          (seq 0 9)
  &&
  let boxRowStart := (3 * (row / 3))%nat in
  let boxColStart := (3 * (col / 3))%nat in
  forallb (fun i =>
    forallb (fun j => negb (holds board (boxRowStart + i) (boxColStart + j) num))
            (seq 0 3))
    (seq 0 3).

(** The candidates [for (let n = 1; n <= 9; n++)]. *)
Definition digits : list Z := [1; 2; 3; 4; 5; 6; 7; 8; 9].

(** [count] of the inner loop of [findBestCell]. *)
Definition candidates (board : Grid) (r c : nat) : nat :=
  length (filter (fun n => isValid board r c n = true) digits).

(** The cells in the order the two loops of [findBestCell] visit them. *)
Definition scan : list (nat * nat) :=
  r ← seq 0 9; c ← seq 0 9; [(r, c)].

(** The loop state of [findBestCell]: [best] is [None] for
    [bestRow = bestCol = -1]. *)
Record Best := mkBest { best : option (nat * nat); minPossibilities : nat }.

Definition visit (board : Grid) (st : Best) (rc : nat * nat) : Best :=
  let '(r, c) := rc in
  if holds board r c 0 then
    let count := candidates board r c in
    if (count <? minPossibilities st)%nat
    then mkBest (Some (r, c)) count
    else st
  else st.

Definition findBestCell (board : Grid) : option (nat * nat) :=
  best (fold_left (visit board) scan (mkBest None 10)).

(** The loop of [solve] over the candidates still to try, with the
    recursive call as [rec]. *)
Fixpoint attempt (rec : Grid → option (bool * Grid)) (r c : nat)
    (ns : list Z) (board : Grid) : option (bool * Grid) :=
  match ns with
  | [] => Some (false, board)
  | n :: ns' =>
      if isValid board r c n then
        match rec (put board r c (Num n)) with
        | None => None
        | Some (true, board') => Some (true, board')
        | Some (false, board') => attempt rec r c ns' (put board' r c (Num 0))
        end
      else attempt rec r c ns' board
  end.

(** [solve] with its recursion depth bounded by [fuel]; [None] when the
    bound is reached. *)
Fixpoint solve_fuel (fuel : nat) (board : Grid) : option (bool * Grid) :=
  match fuel with
  | O => None
  | S fuel' =>
      match findBestCell board with
      | None => Some (true, board)
      | Some (r, c) => attempt (solve_fuel fuel') r c digits board
      end
  end.

(** The number of empty cells. *)
Definition empties (board : Grid) : nat :=
  length (filter (fun rc => holds board rc.1 rc.2 0 = true) scan).

Definition solve (board : Grid) : bool * Grid :=
  match solve_fuel (S (empties board)) board with
  | Some res => res
  | None => (false, board)
  end.

(** ** The puzzle loader *)

Definition PUZZLES (difficulty : Difficulty) : string :=
  match difficulty with
  | easy => "..3.2.6..9..3.5..1..18.64....81.29..7.......8..67.82....26.95..8..2.3..9..5.1.3.."
  | medium => "2...8.3...6..7..84.3.5..2.9...1.54.8.........4.27.6...3.1..7.4.72..4..6...4.1...3"
  | hard => "85...24..72......9..4.........1.7..23.5...9...4...........8..7..17..........36.4."
  end%string.

(** [parseInt(char, 10)] of [baseString[i]]: a digit gives its value, any
    other symbol and [undefined] give [NaN]. *)
Definition parseInt (char : option ascii) : number :=
  match char with
  | Some ch =>
      let k := nat_of_ascii ch in
      if ((48 <=? k) && (k <=? 57))%nat then Num (Z.of_nat k - 48) else NaN
  | None => NaN
  end.

Definition is_dot (char : option ascii) : bool :=
  match char with
  | Some ch => (nat_of_ascii ch =? 46)%nat
  | None => false
  end.

Definition difficulty_name (difficulty : Difficulty) : string :=
  match difficulty with
  | easy => "easy"
  | medium => "medium"
  | hard => "hard"
  end%string.

Inductive outcome (A : Type) :=
  | Return (a : A)
  | Throw (message : string).
Arguments Return {A} a.
Arguments Throw {A} message.

(** The first loop over [i < 81], filling [solutionBoard]. *)
Definition fill_solution (baseString : string) (solutionBoard : Grid) : Grid :=
  fold_left (fun acc i =>
    let char := String.get i baseString in
    put acc (i / 9) (i mod 9) (if is_dot char then Num 0 else parseInt char))
    (seq 0 81) solutionBoard.

(** The second loop over [i < 81], filling [puzzleBoard]. *)
Definition fill_puzzle (baseString : string) (puzzleBoard : Board) : Board :=
  fold_left (fun acc i =>
    let char := String.get i baseString in
    if is_dot char then acc
    else put acc (i / 9) (i mod 9) (mkCell (Some (parseInt char)) true false))
    (seq 0 81) puzzleBoard.

(** [Array.from({ length: 9 }, () => Array(9).fill(0))] *)
Definition zeros : Grid := replicate 9 (replicate 9 (Num 0)).

(** [Array.from({ length: 9 }, () => Array.from({ length: 9 }, () =>
    ({ value: null, isGiven: false, isInvalid: false })))] *)
Definition blank : Board := replicate 9 (replicate 9 (mkCell None false false)).

(** The body of [generatePuzzle] once [baseString] is read from [PUZZLES]. *)
Definition generatePuzzle_of (baseString : string) (difficulty : Difficulty)
  : outcome (Board * Grid) :=
  let puzzleBoard : Board := blank in
  let solutionBoard : Grid := zeros in
  let solutionBoard := fill_solution baseString solutionBoard in
  let '(success, solutionBoard) := solve solutionBoard in
  if negb success then
    Throw ("Failed to solve " +:+ difficulty_name difficulty +:+ " puzzle")
  else
    Return (fill_puzzle baseString puzzleBoard, solutionBoard).

Definition generatePuzzle (difficulty : Difficulty) : outcome (Board * Grid) :=
  generatePuzzle_of (PUZZLES difficulty) difficulty.

(** ** The session controller *)

(** The state of the component [SudokuScreen]. *)
Record Session := mkSession {
  status : GameStatus;
  difficulty : Difficulty;
  board : option Board;
  solution : option Grid;
  selectedCell : option Position;
  timer : nat;
  errors : nat
}.

Definition initial_session : Session :=
  mkSession menu medium None None None 0 0.

Definition setStatus (st : GameStatus) (s : Session) : Session :=
  mkSession st (difficulty s) (board s) (solution s) (selectedCell s) (timer s) (errors s).

Definition setDifficulty (d : Difficulty) (s : Session) : Session :=
  mkSession (status s) d (board s) (solution s) (selectedCell s) (timer s) (errors s).

Definition setSelectedCell (p : option Position) (s : Session) : Session :=
  mkSession (status s) (difficulty s) (board s) (solution s) p (timer s) (errors s).

Definition setTimer (t : nat) (s : Session) : Session :=
  mkSession (status s) (difficulty s) (board s) (solution s) (selectedCell s) t (errors s).

(** [startGame] with the puzzle definition it loads as a parameter: the
    [try] block runs the loader, the [catch] block sets the status. *)
Definition startGame_on (baseString : string) (diff : Difficulty) (s : Session) : Session :=
  match generatePuzzle_of baseString diff with
  | Return (puzzle, solution) =>
      mkSession playing diff (Some puzzle) (Some solution) None 0 0
  | Throw error => setStatus menu s
  end.

Definition startGame (diff : Difficulty) (s : Session) : Session :=
  startGame_on (PUZZLES diff) diff s.

(** [currentBoard[r][c].value === null || currentBoard[r][c].value !== solution[r][c]]
    is false. *)
Definition cell_matches (solution : Grid) (currentBoard : Board) (r c : nat) : bool :=
  match at_ currentBoard r c with
  | Some cell =>
      match value cell, at_ solution r c with
      | Some v, Some w => strict_eq v w
      | _, _ => false
      end
  | None => false
  end.

Definition checkWin (solution : Grid) (currentBoard : Board) : bool :=
  forallb (λ r, forallb (λ c, cell_matches solution currentBoard r c) (seq 0 9)) (seq 0 9).

(** [JSON.parse(JSON.stringify(board))]: a copy, in which [NaN] is
    written as [null]. *)
Definition json_cell (cell : Cell) : Cell :=
  mkCell (match value cell with Some NaN => None | v => v end)
         (isGiven cell) (isInvalid cell).

Definition json_copy (board : Board) : Board :=
  (λ line : list Cell, json_cell <$> line) <$> board.

(** [solution && solution[row][col] !== num] *)
Definition differs (solution : option Grid) (row col : nat) (num : Z) : bool :=
  match solution with
  | Some sol =>
      match at_ sol row col with
      | Some w => negb (strict_eq w (Num num))
      | None => true
      end
  | None => false
  end.

(** [setBoard(newBoard); if (checkWin(newBoard)) setStatus('solved')],
    with [errors] as already updated.  [checkWin] reads [solution!]: the
    board and the solution are set together, so it is there. *)
Definition commit (newBoard : Board) (sel : option Position) (errs : nat) (s : Session)
  : Session :=
  let won := match solution s with
             | Some sol => checkWin sol newBoard
             | None => false
             end in
  mkSession (if won then solved else status s) (difficulty s) (Some newBoard)
            (solution s) sel (timer s) errs.

(** [board.flat().findIndex(c => c.value === null && !c.isGiven)] *)
Definition firstEmpty (board : Board) : option nat :=
  fst <$> list_find (λ c : Cell, value c = None ∧ isGiven c = false) (concat board).

(** [handleNumberInput].  Without a selection the write happens in a
    zero-delay timer callback over the board of this call; the embedding
    runs the callback within the same step. *)
Definition handleNumberInput (num : option Z) (s : Session) : Session :=
  match status s, board s with
  | playing, Some board =>
      match selectedCell s with
      | None =>
          match firstEmpty board, num with
          | Some i, Some n =>
              let row := (i / 9)%nat in
              let col := (i mod 9)%nat in
              let newBoard := json_copy board in
              match at_ newBoard row col with
              | Some currentCell =>
                  let wrong := differs (solution s) row col n in
                  commit (put newBoard row col
                            (mkCell (Some (Num n)) (isGiven currentCell) wrong))
                         (Some (mkPosition row col))
                         (if wrong then S (errors s) else errors s) s
              | None => s
              end
          | _, _ => s
          end
      | Some (mkPosition row col) =>
          match at_ board row col with
          | Some cell =>
              if isGiven cell then s
              else
                let newBoard := json_copy board in
                match at_ newBoard row col with
                | Some currentCell =>
                    match num with
                    | None =>
                        commit (put newBoard row col (mkCell None (isGiven currentCell) false))
                               (selectedCell s) (errors s) s
                    | Some n =>
                        let wasInvalid := isInvalid currentCell in
                        let wrong := differs (solution s) row col n in
                        commit (put newBoard row col
                                  (mkCell (Some (Num n)) (isGiven currentCell) wrong))
                               (selectedCell s)
                               (if wrong && negb wasInvalid then S (errors s) else errors s) s
                    end
                | None => s
                end
          | None => s
          end
      end
  | _, _ => s
  end.

(** [e.key] of a keyboard event: the keys the handler names, a key that
    types one symbol, or any other named key. *)
Inductive Key :=
  | ArrowUp | ArrowDown | ArrowLeft | ArrowRight
  | Backspace | Delete
  | Typed (ch : ascii)
  | OtherKey.

Definition handleKeyDown (key : Key) (s : Session) : Session :=
  match status s, selectedCell s with
  | playing, Some (mkPosition row col) =>
      match key with
      | ArrowUp => setSelectedCell (Some (mkPosition (Nat.max 0 (row - 1)) col)) s
      | ArrowDown => setSelectedCell (Some (mkPosition (Nat.min 8 (row + 1)) col)) s
      | ArrowLeft => setSelectedCell (Some (mkPosition row (Nat.max 0 (col - 1)))) s
      | ArrowRight => setSelectedCell (Some (mkPosition row (Nat.min 8 (col + 1)))) s
      | Backspace | Delete => handleNumberInput None s
      | Typed ch =>
          match parseInt (Some ch) with
          | Num n => if (n =? 0) then s else handleNumberInput (Some n) s
          | NaN => s
          end
      | OtherKey => s
      end
  | _, _ => s
  end.

(** The events the component reacts to.  A click on the number pad with
    no cell selected schedules [handleNumberInput] as the render without
    selection closed over it: with the timers run within the step, that
    is [handleNumberInput] on the session of the click. *)
Inductive Event :=
  | ClickStart                        (* Start Game, New Game, Play Again *)
  | ClickChangeDifficulty             (* setStatus('menu') *)
  | SelectDifficulty (d : Difficulty) (* the selector of the menu *)
  | ClickCell (rowIdx colIdx : nat)
  | ClickPad (digit : Z)              (* the button i + 1 of the number pad *)
  | ClickErase
  | KeyDown (key : Key)
  | Tick.                             (* the one-second interval *)

Definition step (s : Session) (e : Event) : Session :=
  match e with
  | ClickStart => startGame (difficulty s) s
  | ClickChangeDifficulty => setStatus menu s
  | SelectDifficulty d => setDifficulty d s
  | ClickCell rowIdx colIdx => setSelectedCell (Some (mkPosition rowIdx colIdx)) s
  | ClickPad digit => handleNumberInput (Some digit) s
  | ClickErase =>
      match selectedCell s with
      | Some _ => handleNumberInput None s
      | None => s
      end
  | KeyDown key => handleKeyDown key s
  | Tick => setTimer (S (timer s)) s
  end.

(** * Part II: the notions the theorems are stated with *)

(** ** Positions, units and the scan order *)

Definition inside (p : nat * nat) : Prop := (p.1 < 9)%nat ∧ (p.2 < 9)%nat.

(** Same row, same column or same 3x3 box. *)
Definition related (p q : nat * nat) : Prop :=
  p.1 = q.1 ∨ p.2 = q.2 ∨ ((p.1 / 3)%nat = (q.1 / 3)%nat ∧ (p.2 / 3)%nat = (q.2 / 3)%nat).

Global Instance inside_dec p : Decision (inside p).
Proof. unfold inside. apply _. Defined.

Global Instance related_dec p q : Decision (related p q).
Proof. unfold related. apply _. Defined.

Definition empty_at (board : Grid) (p : nat * nat) : Prop :=
  holds board p.1 p.2 0 = true.

Definition count_at (board : Grid) (p : nat * nat) : nat :=
  candidates board p.1 p.2.

(** The recursive call behaves on the boards the loop hands to it: it
    returns, and a failed call hands the board back as it got it. *)
Definition restores (rec : Grid → option (bool * Grid)) (board : Grid) : Prop :=
  ∃ ok board', rec board = Some (ok, board') ∧ (ok = false → board' = board).

(** ** Partial assignments and completed grids *)

(** Every cell of the 9x9 grid is an integer: 0 (empty) or a digit that
    no other cell of its row, column or box holds. *)
Definition proper (board : Grid) : Prop :=
  ∀ p, inside p →
    ∃ v, at_ board p.1 p.2 = Some (Num v)
      ∧ (v = 0 ∨ (1 ≤ v ≤ 9
           ∧ ∀ q, inside q → q ≠ p → related p q → holds board q.1 q.2 v = false)).

Definition complete (board : Grid) : Prop :=
  ∀ p, inside p → holds board p.1 p.2 0 = false.

(** [board] is [full] where it is not empty. *)
Definition extends (board full : Grid) : Prop :=
  ∀ p, inside p → empty_at board p ∨ at_ board p.1 p.2 = at_ full p.1 p.2.

Definition cell_ok (board : Grid) (p : nat * nat) : bool :=
  match at_ board p.1 p.2 with
  | Some (Num v) =>
      (v =? 0) || ((1 <=? v) && (v <=? 9) && isValid (put board p.1 p.2 (Num 0)) p.1 p.2 v)
  | _ => false
  end.

Definition properb (board : Grid) : bool := forallb (cell_ok board) scan.

Definition completeb (board : Grid) : bool :=
  forallb (fun p => negb (holds board p.1 p.2 0)) scan.

Definition number_eqb (a b : option number) : bool :=
  match a, b with
  | Some (Num x), Some (Num y) => x =? y
  | Some NaN, Some NaN => true
  | None, None => true
  | _, _ => false
  end.

Definition extendsb (board full : Grid) : bool :=
  forallb (fun p => holds board p.1 p.2 0
                    || number_eqb (at_ board p.1 p.2) (at_ full p.1 p.2)) scan.

(** ** Rows, columns and boxes of a completed grid *)

Definition row_cells (r : nat) : list (nat * nat) := (λ c, (r, c)) <$> seq 0 9.
Definition col_cells (c : nat) : list (nat * nat) := (λ r, (r, c)) <$> seq 0 9.
Definition box_cells (k : nat) : list (nat * nat) :=
  i ← seq 0 3; j ← seq 0 3; [((3 * (k / 3) + i)%nat, (3 * (k mod 3) + j)%nat)].

(** The 27 units: 9 rows, 9 columns, 9 boxes. *)
Definition units : list (list (nat * nat)) :=
  (row_cells <$> seq 0 9) ++ (col_cells <$> seq 0 9) ++ (box_cells <$> seq 0 9).

(** The number of cells of [u] that hold [d]. *)
Definition occurrences (board : Grid) (u : list (nat * nat)) (d : Z) : nat :=
  length (filter (λ p, holds board p.1 p.2 d = true) u).

(** A valid completed Sudoku: every cell an integer in 1..9, and every
    row, column and box holds each of 1..9 exactly once. *)
Definition valid_sudoku (board : Grid) : Prop :=
  (∀ r c, (r < 9)%nat → (c < 9)%nat → ∃ v, at_ board r c = Some (Num v) ∧ 1 ≤ v ≤ 9)
  ∧ ∀ u, u ∈ units → ∀ d, 1 ≤ d ≤ 9 → occurrences board u d = 1%nat.

Definition cell_value (board : Grid) (p : nat * nat) : Z :=
  match at_ board p.1 p.2 with
  | Some (Num v) => v
  | _ => 0
  end.

Definition unit_shape (u : list (nat * nat)) : Prop :=
  NoDup u ∧ length u = 9%nat ∧ Forall inside u ∧ Forall (λ p, Forall (related p) u) u.

(** ** Runs of the solver and of the loader *)

(** One invocation of [solve] on [board], ending with the returned
    boolean and the board as the call leaves it. *)
Inductive solve_run : Grid → bool → Grid → Prop :=
  | run_full board :
      findBestCell board = None → solve_run board true board
  | run_search board r c ok board' :
      findBestCell board = Some (r, c) →
      attempt_run r c digits board ok board' →
      solve_run board ok board'
with attempt_run : nat → nat → list Z → Grid → bool → Grid → Prop :=
  | run_exhausted r c board :
      attempt_run r c [] board false board
  | run_skip r c n ns board ok board' :
      isValid board r c n = false →
      attempt_run r c ns board ok board' →
      attempt_run r c (n :: ns) board ok board'
  | run_found r c n ns board board' :
      isValid board r c n = true →
      solve_run (put board r c (Num n)) true board' →
      attempt_run r c (n :: ns) board true board'
  | run_backtrack r c n ns board board1 ok board' :
      isValid board r c n = true →
      solve_run (put board r c (Num n)) false board1 →
      attempt_run r c ns (put board1 r c (Num 0)) ok board' →
      attempt_run r c (n :: ns) board ok board'.

Scheme solve_run_mut := Induction for solve_run Sort Prop
  with attempt_run_mut := Induction for attempt_run Sort Prop.

(** One invocation of the loader on a puzzle definition. *)
Inductive generatePuzzle_run (baseString : string) (difficulty : Difficulty)
  : outcome (Board * Grid) → Prop :=
  | load_solved solutionBoard :
      solve_run (fill_solution baseString zeros) true solutionBoard →
      generatePuzzle_run baseString difficulty
        (Return (fill_puzzle baseString blank, solutionBoard))
  | load_failed solutionBoard :
      solve_run (fill_solution baseString zeros) false solutionBoard →
      generatePuzzle_run baseString difficulty
        (Throw ("Failed to solve " +:+ difficulty_name difficulty +:+ " puzzle")).

(** ** The three puzzle definitions *)

Definition grid_of_rows (rows : list (list Z)) : Grid := map (map Num) rows.

(** Completions of the three puzzles, used as certificates that the
    search has something to find. *)
Definition easy_completion : Grid := grid_of_rows
  [[4;8;3;9;2;1;6;5;7]; [9;6;7;3;4;5;8;2;1]; [2;5;1;8;7;6;4;9;3];
   [5;4;8;1;3;2;9;7;6]; [7;2;9;5;6;4;1;3;8]; [1;3;6;7;9;8;2;4;5];
   [3;7;2;6;8;9;5;1;4]; [8;1;4;2;5;3;7;6;9]; [6;9;5;4;1;7;3;8;2]].

Definition medium_completion : Grid := grid_of_rows
  [[2;4;5;9;8;1;3;7;6]; [1;6;9;2;7;3;5;8;4]; [8;3;7;5;6;4;2;1;9];
   [9;7;6;1;2;5;4;3;8]; [5;1;3;4;9;8;6;2;7]; [4;8;2;7;3;6;9;5;1];
   [3;9;1;6;5;7;8;4;2]; [7;2;8;3;4;9;1;6;5]; [6;5;4;8;1;2;7;9;3]].

Definition hard_completion : Grid := grid_of_rows
  [[8;5;9;6;1;2;4;3;7]; [7;2;3;8;5;4;1;6;9]; [1;6;4;3;7;9;5;2;8];
   [9;8;6;1;4;7;3;5;2]; [3;7;5;2;6;8;9;1;4]; [2;4;1;5;9;3;7;8;6];
   [4;3;2;9;8;1;6;7;5]; [6;1;7;4;2;5;8;9;3]; [5;9;8;7;3;6;2;4;1]].

Definition completion (difficulty : Difficulty) : Grid :=
  match difficulty with
  | easy => easy_completion
  | medium => medium_completion
  | hard => hard_completion
  end.

(** The grid [solve] starts from. *)
Definition initial (difficulty : Difficulty) : Grid :=
  fill_solution (PUZZLES difficulty) zeros.

Definition grid9 {A} (board : list (list A)) : Prop :=
  length board = 9%nat ∧ Forall (λ line, length line = 9%nat) board.

Global Instance grid9_dec {A} (board : list (list A)) : Decision (grid9 board).
Proof. unfold grid9. apply _. Defined.

(** A grid with no completion: the last cell of the first row has no
    candidate left. *)
Definition dead_end : Grid := grid_of_rows
  [[1;2;3;4;5;6;7;8;0]; [0;0;0;0;0;0;0;0;9]; [0;0;0;0;0;0;0;0;0];
   [0;0;0;0;0;0;0;0;0]; [0;0;0;0;0;0;0;0;0]; [0;0;0;0;0;0;0;0;0];
   [0;0;0;0;0;0;0;0;0]; [0;0;0;0;0;0;0;0;0]; [0;0;0;0;0;0;0;0;0]].

(** When the page offers the event: which widgets are rendered and
    enabled, and the indices they carry. *)
Definition enabled (s : Session) (e : Event) : Prop :=
  match e with
  | ClickStart => True
  | ClickChangeDifficulty => status s ≠ menu
  | SelectDifficulty _ => status s = menu
  | ClickCell rowIdx colIdx =>
      status s ≠ menu ∧ is_Some (board s) ∧ (rowIdx < 9)%nat ∧ (colIdx < 9)%nat
  | ClickPad digit => status s = playing ∧ 1 ≤ digit ≤ 9
  | ClickErase => status s = playing ∧ is_Some (selectedCell s)
  | KeyDown _ => True
  | Tick => status s = playing
  end.

Inductive reachable : Session → Prop :=
  | reachable_initial : reachable initial_session
  | reachable_step s e : reachable s → enabled s e → reachable (step s e).

(** ** Reachable sessions and their invariant *)

Global Instance number_eq_dec : EqDecision number.
Proof. solve_decision. Defined.

Global Instance Cell_eq_dec : EqDecision Cell.
Proof. solve_decision. Defined.

(** The flag of a cell says what its value and the solution say. *)
Definition cell_fresh (sol : Grid) (r c : nat) (cell : Cell) : Prop :=
  match value cell with
  | None => isInvalid cell = false
  | Some (Num v) =>
      isInvalid cell = negb (holds sol r c v)
      ∧ (isGiven cell = true → holds sol r c v = true)
  | Some NaN => False
  end.

Definition session_inv (s : Session) : Prop :=
  match board s, solution s with
  | None, None => True
  | Some b, Some sol =>
      grid9 b ∧ ∀ r c cell, at_ b r c = Some cell → cell_fresh sol r c cell
  | _, _ => False
  end.

(** What [isInvalid] is never stale means. *)
Definition never_stale (s : Session) : Prop :=
  (is_Some (board s) ↔ is_Some (solution s))
  ∧ ∀ b sol, board s = Some b → solution s = Some sol →
      ∀ r c cell, at_ b r c = Some cell →
        (isInvalid cell = true ↔ ∃ v, value cell = Some (Num v) ∧ holds sol r c v = false)
        ∧ (value cell = None → isInvalid cell = false)
        ∧ (isGiven cell = true → isInvalid cell = false).

(** A board the loader builds, cell by cell against the grid the solver
    starts from: blank where the grid is empty, given elsewhere. *)
Definition loaded_cell (puzzle : Board) (init : Grid) (p : nat * nat) : bool :=
  match at_ puzzle p.1 p.2, at_ init p.1 p.2 with
  | Some cell, Some (Num v) =>
      if v =? 0 then bool_decide (cell = mkCell None false false)
      else bool_decide (cell = mkCell (Some (Num v)) true false)
  | _, _ => false
  end.

(** A puzzle definition nothing completes, for the [catch] branch. *)
Definition dead_end_definition : string :=
  "12345678.........9..............................................................."%string.

(** A session in play with one wrong entry: choose easy, start, click
    the first cell, press 9. *)
Definition demo_events : list Event :=
  [SelectDifficulty easy; ClickStart; ClickCell 0 0; ClickPad 9].

Definition demo_session : Session := fold_left step demo_events initial_session.

(** Every cell holds a value, and it is the solution's. *)
Definition all_match (sol : Grid) (b : Board) : Prop :=
  ∀ r c, (r < 9)%nat → (c < 9)%nat →
    ∃ cell v, at_ b r c = Some cell ∧ value cell = Some (Num v)
      ∧ at_ sol r c = Some (Num v).

(** ** Concrete sessions *)

(** The board of [demo_session]: the easy puzzle with a wrong 9 in the
    first cell. *)
Definition demo_board : Board :=
  put (fill_puzzle (PUZZLES easy) blank) 0 0 (mkCell (Some (Num 9)) false true).

Definition played : Session :=
  mkSession playing easy (Some demo_board) (Some easy_completion)
            (Some (mkPosition 0 0)) 0 1.

(** The easy puzzle just started, with the given 3 of the first row
    selected. *)
Definition on_given : Session :=
  mkSession playing easy (Some (fill_puzzle (PUZZLES easy) blank)) (Some easy_completion)
            (Some (mkPosition 0 2)) 0 0.

(** The events that fill every empty cell of the easy puzzle with the
    solution's digit, in row-major order, but for the cells of [skip]. *)
Definition fill_events (skip : list (nat * nat)) : list Event :=
  p ← scan;
  if holds (initial easy) p.1 p.2 0 && negb (bool_decide (p ∈ skip))
  then [ClickCell p.1 p.2; ClickPad (cell_value easy_completion p)]
  else [].

Definition one_left : Session :=
  fold_left step ([SelectDifficulty easy; ClickStart] ++ fill_events [(0, 0)%nat])
            initial_session.

(** ** Further notions *)

(** One step of the two loops of the loader: the cell of index [i] is
    left as it is or written. *)
Definition write_cell {A} (skip : nat → bool) (val : nat → A)
    (acc : list (list A)) (i : nat) : list (list A) :=
  if skip i then acc else put acc (i / 9) (i mod 9) (val i).

Global Instance GameStatus_eq_dec : EqDecision GameStatus.
Proof. solve_decision. Defined.

Global Instance enabled_dec s e : Decision (enabled s e).
Proof. destruct e; unfold enabled; apply _. Defined.

(** The events of [evs] are offered one after the other from [s]. *)
Fixpoint all_enabled (s : Session) (evs : list Event) : bool :=
  match evs with
  | [] => true
  | e :: evs' => bool_decide (enabled s e) && all_enabled (step s e) evs'
  end.

(** The cell at [p] is marked invalid. *)
Definition invalid_at (b : Board) (p : nat * nat) : bool :=
  match at_ b p.1 p.2 with
  | Some cell => isInvalid cell
  | None => false
  end.

(** The number of cells of the 9x9 board marked invalid. *)
Definition invalid_count (b : Board) : nat :=
  length (filter (λ p, invalid_at b p = true) scan).

(** The cell [handleNumberInput] writes for [num] against [sol]. *)
Definition written (sol : Grid) (r c : nat) (num : option Z) : Cell :=
  match num with
  | None => mkCell None false false
  | Some n => mkCell (Some (Num n)) false (negb (holds sol r c n))
  end.

(** The error count after a cell [old] is overwritten with [new]. *)
Definition counted (old new : Cell) (errs : nat) : nat :=
  if isInvalid new && negb (isInvalid old) then S errs else errs.

(** What holds of every reachable session besides [session_inv]. *)
Definition session_ok (s : Session) : Prop :=
  session_inv s
  ∧ (status s ≠ menu → is_Some (board s))
  ∧ (∀ r c, selectedCell s = Some (mkPosition r c) →
       (r < 9)%nat ∧ (c < 9)%nat ∧ is_Some (board s))
  ∧ (∀ sol, solution s = Some sol → valid_sudoku sol)
  ∧ (∀ b sol, status s = solved → board s = Some b → solution s = Some sol →
       checkWin sol b = true)
  ∧ (∀ b, board s = Some b → (invalid_count b ≤ errors s)%nat).

(** The easy puzzle just started, nothing selected. *)
Definition started : Session :=
  mkSession playing easy (Some (fill_puzzle (PUZZLES easy) blank)) (Some easy_completion)
            None 0 0.

(** The events of a whole game of the easy puzzle without a mistake. *)
Definition winning_events : list Event :=
  [SelectDifficulty easy; ClickStart] ++ fill_events [].

Definition won_session : Session := fold_left step winning_events initial_session.

(** The key that types the digit [d]. *)
Definition digit_key (d : Z) : Key := Typed (ascii_of_nat (48 + Z.to_nat d)).

Global Instance Difficulty_eq_dec : EqDecision Difficulty.
Proof. solve_decision. Defined.

Global Instance Key_eq_dec : EqDecision Key.
Proof. solve_decision. Defined.

Global Instance Event_eq_dec : EqDecision Event.
Proof. solve_decision. Defined.

(** Every cell of the board is empty or holds a digit 1..9. *)
Definition digits_only (b : Board) : Prop :=
  ∀ r c cell, at_ b r c = Some cell →
    value cell = None ∨ ∃ v, value cell = Some (Num v) ∧ 1 ≤ v ≤ 9.

Definition digit_cell (cell : Cell) : bool :=
  match value cell with
  | None => true
  | Some (Num v) => (1 <=? v) && (v <=? 9)
  | Some NaN => false
  end.

Definition digits_onlyb (b : Board) : bool := forallb (forallb digit_cell) b.

(** * Part III: lemmas and theorems *)

(** * Properties of the grid operations *)

Section grid_access.
Context {A : Type}.
Implicit Types (board : list (list A)) (r c : nat) (v : A).

Lemma at_put_eq board r c v :
  is_Some (at_ board r c) → at_ (put board r c v) r c = Some v.
Proof.
  unfold at_, put. destruct (board !! r) as [line|] eqn:Hr; [|by intros [??]].
  intros [x Hx]. apply lookup_lt_Some in Hr as Hlr. apply lookup_lt_Some in Hx.
  rewrite list_lookup_insert_eq by done. by apply list_lookup_insert_eq.
Qed.

Lemma at_put_ne board r c r' c' v :
  (r, c) ≠ (r', c') → at_ (put board r c v) r' c' = at_ board r' c'.
Proof.
  intros Hne. unfold at_, put. destruct (board !! r) as [line|] eqn:Hr; [|done].
  destruct (decide (r = r')) as [<-|Hrr].
  - apply lookup_lt_Some in Hr as Hlr. rewrite list_lookup_insert_eq, Hr by done.
    apply list_lookup_insert_ne. congruence.
  - by rewrite list_lookup_insert_ne.
Qed.

Lemma put_put board r c v w : put (put board r c v) r c w = put board r c w.
Proof.
  unfold put. destruct (board !! r) as [line|] eqn:Hr; [|by rewrite Hr].
  apply lookup_lt_Some in Hr as Hlr. rewrite list_lookup_insert_eq by done.
  by rewrite list_insert_insert_eq, list_insert_insert_eq.
Qed.

Lemma put_same board r c v : at_ board r c = Some v → put board r c v = board.
Proof.
  unfold at_, put. destruct (board !! r) as [line|] eqn:Hr; [|done].
  intros Hc. by rewrite (list_insert_id line c v), list_insert_id.
Qed.

Lemma put_undo board r c v w :
  at_ board r c = Some v → put (put board r c w) r c v = board.
Proof. intros. rewrite put_put. by apply put_same. Qed.
End grid_access.

Lemma strict_eq_true a n : strict_eq a (Num n) = true ↔ a = Num n.
Proof.
  destruct a as [z|]; simpl; [|done].
  rewrite Z.eqb_eq. split; congruence.
Qed.

Lemma holds_true board r c n :
  holds board r c n = true ↔ at_ board r c = Some (Num n).
Proof.
  unfold holds. destruct (at_ board r c) as [x|]; [|done].
  rewrite strict_eq_true. split; congruence.
Qed.

Lemma holds_put_eq board r c n m :
  is_Some (at_ board r c) → holds (put board r c (Num n)) r c m = (n =? m).
Proof. intros. unfold holds. by rewrite at_put_eq. Qed.

Lemma holds_put_ne board r c r' c' x m :
  (r, c) ≠ (r', c') → holds (put board r c x) r' c' m = holds board r' c' m.
Proof. intros. unfold holds. by rewrite at_put_ne. Qed.

(** * The scan order and the occupancy predicate *)

Lemma elem_of_scan p : p ∈ scan ↔ inside p.
Proof.
  destruct p as [r c]. unfold scan, inside.
  rewrite list_elem_of_bind. cbn [fst snd]. split.
  - intros (r' & Hin & Hr'). apply elem_of_seq in Hr'.
    apply list_elem_of_bind in Hin as (c' & Hin & Hc'). apply elem_of_seq in Hc'.
    apply list_elem_of_singleton in Hin. simplify_eq. lia.
  - intros [Hr Hc]. exists r. split; [|apply elem_of_seq; lia].
    apply list_elem_of_bind. exists c. split; [|apply elem_of_seq; lia].
    by apply list_elem_of_singleton.
Qed.

Lemma NoDup_scan : NoDup scan.
Proof. apply (bool_decide_unpack _). vm_compute. exact I. Qed.

Lemma forallb_seq (f : nat → bool) (n : nat) :
  forallb f (seq 0 n) = true ↔ ∀ i, (i < n)%nat → f i = true.
Proof.
  rewrite forallb_forall. split.
  - intros H i Hi. apply H, in_seq. lia.
  - intros H i Hi. apply in_seq in Hi. apply H. lia.
Qed.

Lemma isValid_spec board r c n :
  inside (r, c) →
  isValid board r c n = true ↔
  ∀ q, inside q → related (r, c) q → holds board q.1 q.2 n = false.
Proof.
  intros [Hr Hc]. cbn [fst snd] in Hr, Hc. unfold isValid.
  rewrite andb_true_iff, !forallb_seq. split.
  - intros [Hline Hbox] [r' c'] [Hr' Hc'] Hrel. unfold related in Hrel.
    cbn [fst snd] in *. destruct Hrel as [<-|[<-|[Hbr Hbc]]].
    + specialize (Hline c' Hc'). apply andb_true_iff in Hline as [H _].
      by apply negb_true_iff in H.
    + specialize (Hline r' Hr'). apply andb_true_iff in Hline as [_ H].
      by apply negb_true_iff in H.
    + assert (Hi : (r' mod 3 < 3)%nat) by (apply Nat.mod_upper_bound; lia).
      assert (Hj : (c' mod 3 < 3)%nat) by (apply Nat.mod_upper_bound; lia).
      specialize (Hbox _ Hi). rewrite forallb_seq in Hbox.
      specialize (Hbox _ Hj). apply negb_true_iff in Hbox.
      rewrite Hbr, Hbc, <- !Nat.div_mod_eq in Hbox. done.
  - intros H. split.
    + intros i Hi. apply andb_true_iff. split; apply negb_true_iff.
      * apply (H (r, i)); [done|]. by left.
      * apply (H (i, c)); [done|]. right. by left.
    + intros i Hi. apply forallb_seq. intros j Hj. apply negb_true_iff.
      assert (Hdr : ((3 * (r / 3) + i) / 3 = r / 3)%nat).
      { rewrite (Nat.mul_comm 3), Nat.div_add_l by lia.
        rewrite (Nat.div_small i) by lia. lia. }
      assert (Hdc : ((3 * (c / 3) + j) / 3 = c / 3)%nat).
      { rewrite (Nat.mul_comm 3), Nat.div_add_l by lia.
        rewrite (Nat.div_small j) by lia. lia. }
      apply (H ((3 * (r / 3) + i)%nat, (3 * (c / 3) + j)%nat)).
      * assert (r / 3 < 3)%nat by (apply Nat.Div0.div_lt_upper_bound; lia).
        assert (c / 3 < 3)%nat by (apply Nat.Div0.div_lt_upper_bound; lia).
        split; cbn [fst snd]; lia.
      * right. right. cbn [fst snd]. by rewrite Hdr, Hdc.
Qed.

(** * [findBestCell]: the loop invariant of the scan *)

Lemma candidates_le board r c : (candidates board r c ≤ 9)%nat.
Proof. unfold candidates. apply (length_filter _ digits). Qed.

Lemma visit_fold board l st :
  let st' := fold_left (visit board) l st in
  (st' = st
    ∧ ∀ q, q ∈ l → empty_at board q → (minPossibilities st ≤ count_at board q)%nat)
  ∨ (∃ l1 p l2, l = l1 ++ p :: l2 ∧ st' = mkBest (Some p) (count_at board p)
       ∧ empty_at board p ∧ (count_at board p < minPossibilities st)%nat
       ∧ (∀ q, q ∈ l1 → empty_at board q → (count_at board p < count_at board q)%nat)
       ∧ (∀ q, q ∈ l2 → empty_at board q → (count_at board p ≤ count_at board q)%nat)).
Proof.
  revert st. induction l as [|[r c] l IH]; intros st; simpl.
  { left. split; [done|]. intros q Hq. by apply elem_of_nil in Hq. }
  destruct (holds board r c 0) eqn:Hempty; cycle 1.
  { destruct (IH st) as [[-> Hall]|(l1 & p & l2 & -> & -> & Hp & Hlt & Hl1 & Hl2)].
    - left. split; [done|]. intros q Hq Hq0.
      apply elem_of_cons in Hq as [->|Hq]; [|by apply Hall].
      unfold empty_at in Hq0. simpl in Hq0. congruence.
    - right. exists ((r, c) :: l1), p, l2. repeat split; try done.
      intros q Hq Hq0. apply elem_of_cons in Hq as [->|Hq]; [|by apply Hl1].
      unfold empty_at in Hq0. simpl in Hq0. congruence. }
  destruct (candidates board r c <? minPossibilities st)%nat eqn:Hcmp.
  - apply Nat.ltb_lt in Hcmp.
    destruct (IH (mkBest (Some (r, c)) (candidates board r c)))
      as [[-> Hall]|(l1 & p & l2 & -> & -> & Hp & Hlt & Hl1 & Hl2)]; right.
    + exists [], (r, c), l. repeat split; try done.
      intros q Hq. by apply elem_of_nil in Hq.
    + exists ((r, c) :: l1), p, l2. simpl in Hlt. repeat split; try done; [lia|].
      intros q Hq Hq0. apply elem_of_cons in Hq as [->|Hq]; [done|by apply Hl1].
  - apply Nat.ltb_ge in Hcmp.
    destruct (IH st) as [[-> Hall]|(l1 & p & l2 & -> & -> & Hp & Hlt & Hl1 & Hl2)].
    + left. split; [done|]. intros q Hq Hq0.
      apply elem_of_cons in Hq as [->|Hq]; [done|by apply Hall].
    + right. exists ((r, c) :: l1), p, l2. repeat split; try done.
      intros q Hq Hq0. apply elem_of_cons in Hq as [->|Hq]; [|by apply Hl1].
      unfold count_at at 2. simpl. lia.
Qed.

(** What [findBestCell] returns, read off the invariant. *)
Lemma findBestCell_None board :
  findBestCell board = None ↔ ∀ q, inside q → ¬ empty_at board q.
Proof.
  unfold findBestCell.
  destruct (visit_fold board scan (mkBest None 10))
    as [[-> Hall]|(l1 & p & l2 & Hscan & -> & Hp & Hlt & Hl1 & Hl2)]; simpl in *.
  - split; [|done]. intros _ q Hq Hq0. apply elem_of_scan in Hq.
    specialize (Hall q Hq Hq0). pose proof (candidates_le board q.1 q.2).
    unfold count_at in Hall. lia.
  - split; [done|]. intros Hnone. exfalso. apply (Hnone p); [|done].
    apply elem_of_scan. rewrite Hscan. apply elem_of_app. right. by left.
Qed.

Lemma findBestCell_Some board p :
  findBestCell board = Some p →
  ∃ l1 l2, scan = l1 ++ p :: l2 ∧ empty_at board p
    ∧ (∀ q, q ∈ l1 → empty_at board q → (count_at board p < count_at board q)%nat)
    ∧ (∀ q, q ∈ l2 → empty_at board q → (count_at board p ≤ count_at board q)%nat).
Proof.
  unfold findBestCell.
  destruct (visit_fold board scan (mkBest None 10))
    as [[-> Hall]|(l1 & p' & l2 & Hscan & -> & Hp & Hlt & Hl1 & Hl2)]; simpl in *.
  - done.
  - intros [= <-]. by exists l1, l2.
Qed.

Lemma findBestCell_inside board p :
  findBestCell board = Some p → inside p ∧ empty_at board p.
Proof.
  intros (l1 & l2 & Hscan & Hp & _)%findBestCell_Some. split; [|done].
  apply elem_of_scan. rewrite Hscan. apply elem_of_app. right. by left.
Qed.

(** * Termination measure: the number of empty cells *)

Section filter_length.
Context {A : Type} (P Q : A → Prop) `{!∀ x, Decision (P x)} `{!∀ x, Decision (Q x)}.

Lemma length_filter_sub (l : list A) :
  (∀ x, x ∈ l → Q x → P x) → (length (filter Q l) ≤ length (filter P l))%nat.
Proof.
  induction l as [|x l IH]; intros Hsub; [done|].
  rewrite !filter_cons.
  assert (length (filter Q l) ≤ length (filter P l))%nat.
  { apply IH. intros y Hy. apply Hsub. by right. }
  destruct (decide (Q x)) as [Hq|Hq]; destruct (decide (P x)) as [Hp|Hp]; simpl; try lia.
  exfalso. apply Hp, Hsub; [by left|done].
Qed.

Lemma length_filter_sub_lt (l : list A) (p : A) :
  (∀ x, x ∈ l → Q x → P x) → p ∈ l → P p → ¬ Q p →
  (length (filter Q l) < length (filter P l))%nat.
Proof.
  induction l as [|x l IH]; intros Hsub Hin Hp Hq.
  { by apply elem_of_nil in Hin. }
  rewrite !filter_cons.
  assert (Hsub' : ∀ y, y ∈ l → Q y → P y) by (intros y Hy; apply Hsub; by right).
  pose proof (length_filter_sub l Hsub').
  apply elem_of_cons in Hin as [<-|Hin].
  - rewrite decide_False, decide_True by done. simpl. lia.
  - specialize (IH Hsub' Hin Hp Hq).
    destruct (decide (Q x)) as [Hqx|Hqx]; destruct (decide (P x)) as [Hpx|Hpx]; simpl; try lia.
    exfalso. apply Hpx, Hsub; [by left|done].
Qed.
End filter_length.

Lemma empties_le board : (empties board ≤ 81)%nat.
Proof. unfold empties. apply (length_filter _ scan). Qed.

Lemma empties_put board r c n :
  inside (r, c) → empty_at board (r, c) → n ≠ 0 →
  (empties (put board r c (Num n)) < empties board)%nat.
Proof.
  intros Hin Hempty Hn. unfold empties.
  apply holds_true in Hempty as Hat. cbn [fst snd] in Hat.
  apply (length_filter_sub_lt _ _ scan (r, c)).
  - intros [r' c'] _. cbn [fst snd]. destruct (decide ((r, c) = (r', c'))) as [[= <- <-]|Hne].
    + rewrite holds_put_eq by (by rewrite Hat). intros Heq. apply Z.eqb_eq in Heq. done.
    + by rewrite holds_put_ne.
  - by apply elem_of_scan.
  - done.
  - cbn [fst snd]. rewrite holds_put_eq by (by rewrite Hat).
    apply not_true_iff_false, Z.eqb_neq. done.
Qed.

(** * The candidate loop of [solve] *)

Lemma digits_nonzero n : n ∈ digits → 1 ≤ n ≤ 9.
Proof. unfold digits. rewrite !elem_of_cons, elem_of_nil. lia. Qed.

Lemma elem_of_digits n : n ∈ digits ↔ 1 ≤ n ≤ 9.
Proof.
  split; [apply digits_nonzero|]. unfold digits.
  rewrite !elem_of_cons, elem_of_nil. lia.
Qed.

Lemma attempt_spec rec r c ns board :
  at_ board r c = Some (Num 0) →
  (∀ n, n ∈ ns → isValid board r c n = true → restores rec (put board r c (Num n))) →
  (attempt rec r c ns board = Some (false, board)
    ∧ ∀ n, n ∈ ns → isValid board r c n = true →
        rec (put board r c (Num n)) = Some (false, put board r c (Num n)))
  ∨ (∃ ns1 n ns2 board',
       ns = ns1 ++ n :: ns2 ∧ isValid board r c n = true
       ∧ rec (put board r c (Num n)) = Some (true, board')
       ∧ attempt rec r c ns board = Some (true, board')
       ∧ ∀ m, m ∈ ns1 → isValid board r c m = true →
           rec (put board r c (Num m)) = Some (false, put board r c (Num m))).
Proof.
  intros Hat. induction ns as [|n ns IH]; intros Hrec.
  { left. split; [done|]. intros n Hn. by apply elem_of_nil in Hn. }
  assert (Hrec' : ∀ m, m ∈ ns → isValid board r c m = true →
                       restores rec (put board r c (Num m))).
  { intros m Hm. apply Hrec. by right. }
  specialize (IH Hrec'). simpl.
  destruct (isValid board r c n) eqn:Hvalid.
  - destruct (Hrec n) as (ok & board' & Hcall & Hback); [by left|done|].
    rewrite Hcall. destruct ok.
    + right. exists [], n, ns, board'. repeat split; try done.
      intros m Hm. by apply elem_of_nil in Hm.
    + rewrite (Hback eq_refl) in *. rewrite put_undo by done.
      destruct IH as [[Hres Hall]|(ns1 & m & ns2 & b' & -> & Hm & Hcallm & Hres & Hbefore)].
      * left. split; [done|]. intros m Hm Hvm.
        apply elem_of_cons in Hm as [->|Hm]; [done|by apply Hall].
      * right. exists (n :: ns1), m, ns2, b'. repeat split; try done.
        intros k Hk Hvk. apply elem_of_cons in Hk as [->|Hk]; [done|by apply Hbefore].
  - destruct IH as [[Hres Hall]|(ns1 & m & ns2 & b' & -> & Hm & Hcallm & Hres & Hbefore)].
    + left. split; [done|]. intros m Hm Hvm.
      apply elem_of_cons in Hm as [->|Hm]; [congruence|by apply Hall].
    + right. exists (n :: ns1), m, ns2, b'. repeat split; try done.
      intros k Hk Hvk. apply elem_of_cons in Hk as [->|Hk]; [congruence|by apply Hbefore].
Qed.

Lemma attempt_mono (rec rec' : Grid → option (bool * Grid)) r c ns board res :
  (∀ x y, rec x = Some y → rec' x = Some y) →
  attempt rec r c ns board = Some res → attempt rec' r c ns board = Some res.
Proof.
  intros Hmono. revert board. induction ns as [|n ns IH]; intros board; simpl; [done|].
  destruct (isValid board r c n); [|apply IH].
  destruct (rec (put board r c (Num n))) as [[[] b']|] eqn:Hcall; [| |done].
  - rewrite (Hmono _ _ Hcall). done.
  - rewrite (Hmono _ _ Hcall). apply IH.
Qed.

(** * [solve]: termination, and what a failed search leaves behind *)

Lemma solve_fuel_S fuel board :
  solve_fuel (S fuel) board =
  match findBestCell board with
  | None => Some (true, board)
  | Some (r, c) => attempt (solve_fuel fuel) r c digits board
  end.
Proof. reflexivity. Qed.

Lemma solve_fuel_mono fuel fuel' board res :
  (fuel ≤ fuel')%nat → solve_fuel fuel board = Some res → solve_fuel fuel' board = Some res.
Proof.
  revert fuel' board res. induction fuel as [|fuel IH]; intros fuel' board res Hle; [done|].
  destruct fuel' as [|fuel']; [lia|]. rewrite !solve_fuel_S.
  destruct (findBestCell board) as [[r c]|]; [|done].
  apply attempt_mono. intros x y. apply IH. lia.
Qed.

Lemma solve_fuel_restores fuel board :
  (empties board < fuel)%nat → restores (solve_fuel fuel) board.
Proof.
  revert board. induction fuel as [|fuel IH]; intros board Hfuel; [lia|].
  unfold restores. rewrite solve_fuel_S.
  destruct (findBestCell board) as [[r c]|] eqn:Hfind; [|by exists true, board].
  apply findBestCell_inside in Hfind as [Hin Hempty].
  apply holds_true in Hempty as Hat. cbn [fst snd] in Hat.
  destruct (attempt_spec (solve_fuel fuel) r c digits board Hat)
    as [[Hres _]|(ns1 & n & ns2 & b' & _ & _ & _ & Hres & _)].
  - intros n Hn _. apply IH. apply digits_nonzero in Hn.
    pose proof (empties_put board r c n Hin Hempty). lia.
  - by exists false, board.
  - exists true, b'. done.
Qed.

Lemma solve_fuel_solve fuel board res :
  solve_fuel fuel board = Some res → solve board = res.
Proof.
  intros Hres. unfold solve.
  destruct (solve_fuel_restores (S (empties board)) board) as (ok & b' & Hrun & _); [lia|].
  rewrite Hrun.
  destruct (Nat.le_ge_cases fuel (S (empties board))) as [Hle|Hle].
  - rewrite (solve_fuel_mono _ _ _ _ Hle Hres) in Hrun. congruence.
  - rewrite (solve_fuel_mono _ _ _ _ Hle Hrun) in Hres. congruence.
Qed.

Lemma solve_enough_fuel fuel board :
  (empties board < fuel)%nat → solve_fuel fuel board = Some (solve board).
Proof.
  intros Hfuel. destruct (solve_fuel_restores fuel board Hfuel) as (ok & b' & Hrun & _).
  rewrite Hrun. f_equal. symmetry. by eapply solve_fuel_solve.
Qed.

(** * Partial assignments and completed grids *)

Lemma forallb_scan (f : nat * nat → bool) :
  forallb f scan = true ↔ ∀ p, inside p → f p = true.
Proof.
  rewrite forallb_forall. split; intros H p Hp; apply H.
  - by apply list_elem_of_In, elem_of_scan.
  - by apply elem_of_scan, list_elem_of_In.
Qed.

Lemma related_sym p q : related p q → related q p.
Proof. unfold related. intuition. Qed.

Lemma properb_proper board : properb board = true → proper board.
Proof.
  unfold properb. rewrite forallb_scan. intros H [r c] Hin.
  specialize (H (r, c) Hin). unfold cell_ok in H. cbn [fst snd] in *.
  destruct (at_ board r c) as [[v|]|] eqn:Hat; [|done..].
  exists v. split; [done|].
  apply orb_true_iff in H as [H|H]; [left; by apply Z.eqb_eq|right].
  apply andb_true_iff in H as [H Hvalid]. apply andb_true_iff in H as [H1 H9].
  split; [lia|]. intros [r' c'] Hq Hne Hrel.
  rewrite isValid_spec in Hvalid by done. specialize (Hvalid (r', c') Hq Hrel).
  cbn [fst snd] in *. by rewrite holds_put_ne in Hvalid.
Qed.

Lemma completeb_complete board : completeb board = true → complete board.
Proof.
  unfold completeb. rewrite forallb_scan. intros H p Hp.
  by apply negb_true_iff, H.
Qed.

Lemma number_eqb_eq a b : number_eqb a b = true → a = b.
Proof.
  destruct a as [[x|]|], b as [[y|]|]; simpl; try done.
  intros ->%Z.eqb_eq. done.
Qed.

Lemma extendsb_extends board full : extendsb board full = true → extends board full.
Proof.
  unfold extendsb. rewrite forallb_scan. intros H p Hp.
  specialize (H p Hp). apply orb_true_iff in H as [H|H]; [by left|right].
  by apply number_eqb_eq.
Qed.

(** Placing a valid candidate on an empty cell keeps the assignment proper. *)
Lemma proper_put board r c n :
  proper board → inside (r, c) → empty_at board (r, c) → 1 ≤ n ≤ 9 →
  isValid board r c n = true → proper (put board r c (Num n)).
Proof.
  intros Hproper Hin Hempty Hn Hvalid. apply holds_true in Hempty as Hat.
  cbn [fst snd] in Hat. rewrite isValid_spec in Hvalid by done.
  intros [r' c'] Hp. cbn [fst snd].
  destruct (decide ((r, c) = (r', c'))) as [[= <- <-]|Hne].
  - exists n. rewrite at_put_eq by (by rewrite Hat). split; [done|right].
    split; [done|]. intros [r' c'] Hq Hne Hrel. cbn [fst snd].
    rewrite holds_put_ne by done. by apply (Hvalid (r', c')).
  - destruct (Hproper (r', c') Hp) as (v & Hv & Hcase). cbn [fst snd] in Hv.
    exists v. rewrite at_put_ne by done. split; [done|].
    destruct Hcase as [->|[Hv19 Hfree]]; [by left|right]. split; [done|].
    intros [r2 c2] Hq Hne2 Hrel. cbn [fst snd].
    destruct (decide ((r, c) = (r2, c2))) as [[= <- <-]|Hne3].
    + rewrite holds_put_eq by (by rewrite Hat). apply Z.eqb_neq. intros ->.
      specialize (Hvalid (r', c') Hp (related_sym _ _ Hrel)). cbn [fst snd] in Hvalid.
      apply holds_true in Hv. congruence.
    + rewrite holds_put_ne by done. by apply (Hfree (r2, c2)).
Qed.

Lemma extends_put board full r c v :
  extends board full → empty_at board (r, c) → at_ full r c = Some (Num v) →
  extends (put board r c (Num v)) full.
Proof.
  intros Hext Hempty Hfull [r' c'] Hp. apply holds_true in Hempty as Hat.
  cbn [fst snd] in *. destruct (decide ((r, c) = (r', c'))) as [[= <- <-]|Hne].
  - right. rewrite at_put_eq by (by rewrite Hat). done.
  - unfold empty_at. cbn [fst snd]. rewrite holds_put_ne, at_put_ne by done.
    apply (Hext (r', c') Hp).
Qed.

(** The digit a completed grid holds at an empty cell of a grid it
    extends is a valid candidate there. *)
Lemma extends_candidate board full r c :
  proper full → complete full → extends board full →
  inside (r, c) → empty_at board (r, c) →
  ∃ v, at_ full r c = Some (Num v) ∧ 1 ≤ v ≤ 9 ∧ isValid board r c v = true.
Proof.
  intros Hproper Hcomplete Hext Hin Hempty.
  destruct (Hproper (r, c) Hin) as (v & Hv & Hcase). cbn [fst snd] in Hv.
  destruct Hcase as [->|[Hv19 Hfree]].
  { specialize (Hcomplete (r, c) Hin). cbn [fst snd] in Hcomplete.
    apply holds_true in Hv. congruence. }
  exists v. split; [done|]. split; [done|].
  apply isValid_spec; [done|]. intros [r' c'] Hq Hrel. cbn [fst snd].
  apply not_true_iff_false. intros Hholds.
  apply holds_true in Hempty as Hat. cbn [fst snd] in Hat.
  apply holds_true in Hholds as Hat'.
  destruct (decide ((r', c') = (r, c))) as [[= -> ->]|Hne].
  { rewrite Hat in Hat'. simplify_eq. lia. }
  destruct (Hext (r', c') Hq) as [He|Heq].
  - apply holds_true in He. cbn [fst snd] in He. rewrite He in Hat'.
    simplify_eq. lia.
  - cbn [fst snd] in Heq. rewrite Hat' in Heq.
    specialize (Hfree (r', c') Hq Hne Hrel). cbn [fst snd] in Hfree.
    symmetry in Heq. apply holds_true in Heq. congruence.
Qed.

(** * Soundness and completeness of the search *)

Lemma solve_fuel_sound fuel board board' :
  (empties board < fuel)%nat → proper board →
  solve_fuel fuel board = Some (true, board') → proper board' ∧ complete board'.
Proof.
  revert board. induction fuel as [|fuel IH]; intros board Hfuel Hproper; [lia|].
  rewrite solve_fuel_S. destruct (findBestCell board) as [[r c]|] eqn:Hfind.
  - apply findBestCell_inside in Hfind as [Hin Hempty].
    apply holds_true in Hempty as Hat. cbn [fst snd] in Hat.
    assert (Hsmaller : ∀ n, n ∈ digits → (empties (put board r c (Num n)) < fuel)%nat).
    { intros n Hn%digits_nonzero. pose proof (empties_put board r c n Hin Hempty). lia. }
    destruct (attempt_spec (solve_fuel fuel) r c digits board Hat)
      as [[Hres _]|(ns1 & n & ns2 & b' & Hsplit & Hvalid & Hcall & Hres & _)].
    + intros n Hn _. by apply solve_fuel_restores, Hsmaller.
    + rewrite Hres. done.
    + rewrite Hres. intros [= <-].
      assert (Hn : n ∈ digits) by (rewrite Hsplit; apply elem_of_app; right; by left).
      apply (IH (put board r c (Num n))); [by apply Hsmaller| |done].
      apply proper_put; try done. by apply digits_nonzero.
  - intros [= <-]. split; [done|]. intros p Hp.
    apply not_true_iff_false. rewrite findBestCell_None in Hfind. by apply Hfind.
Qed.

Lemma solve_fuel_complete fuel board full :
  (empties board < fuel)%nat → proper full → complete full → extends board full →
  ∃ board', solve_fuel fuel board = Some (true, board').
Proof.
  intros Hfuel Hproper Hcomplete. revert board Hfuel.
  induction fuel as [|fuel IH]; intros board Hfuel Hext; [lia|].
  rewrite solve_fuel_S. destruct (findBestCell board) as [[r c]|] eqn:Hfind; [|by eexists].
  apply findBestCell_inside in Hfind as [Hin Hempty].
  apply holds_true in Hempty as Hat. cbn [fst snd] in Hat.
  assert (Hsmaller : ∀ n, 1 ≤ n ≤ 9 → (empties (put board r c (Num n)) < fuel)%nat).
  { intros n Hn. pose proof (empties_put board r c n Hin Hempty). lia. }
  destruct (attempt_spec (solve_fuel fuel) r c digits board Hat)
    as [[_ Hall]|(ns1 & n & ns2 & b' & _ & _ & _ & Hres & _)].
  - intros n Hn%digits_nonzero _. by apply solve_fuel_restores, Hsmaller.
  - exfalso.
    destruct (extends_candidate board full r c) as (v & Hv & Hv19 & Hvalid); try done.
    specialize (Hall v (proj2 (elem_of_digits v) Hv19) Hvalid).
    destruct (IH (put board r c (Num v))) as [b' Hb']; [by apply Hsmaller| |congruence].
    by apply extends_put.
  - by exists b'.
Qed.

(** The search writes on empty cells only. *)
Lemma holds_at_eq (b1 b2 : Grid) r c n :
  at_ b1 r c = at_ b2 r c → holds b1 r c n = holds b2 r c n.
Proof. unfold holds. by intros ->. Qed.

Lemma attempt_keeps rec r c ns board ok board' r' c' :
  (∀ b ok' b', rec b = Some (ok', b') → holds b r' c' 0 = false →
     at_ b' r' c' = at_ b r' c') →
  (r, c) ≠ (r', c') → holds board r' c' 0 = false →
  attempt rec r c ns board = Some (ok, board') → at_ board' r' c' = at_ board r' c'.
Proof.
  intros Hrec Hne. revert board. induction ns as [|n ns IH]; intros board Hfilled; simpl.
  { by intros [= _ <-]. }
  destruct (isValid board r c n); [|by apply IH].
  destruct (rec (put board r c (Num n))) as [[[] b1]|] eqn:Hcall; [| |done].
  - intros [= _ <-]. rewrite (Hrec _ _ _ Hcall); [by rewrite at_put_ne|].
    by rewrite holds_put_ne.
  - assert (Hb1 : at_ b1 r' c' = at_ board r' c').
    { rewrite (Hrec _ _ _ Hcall); [by rewrite at_put_ne|]. by rewrite holds_put_ne. }
    intros Hrest. apply IH in Hrest; [by rewrite Hrest, at_put_ne|].
    rewrite holds_put_ne by done. by rewrite (holds_at_eq _ _ _ _ _ Hb1).
Qed.

Lemma solve_fuel_keeps fuel board ok board' r c :
  solve_fuel fuel board = Some (ok, board') →
  holds board r c 0 = false → at_ board' r c = at_ board r c.
Proof.
  revert board ok board'. induction fuel as [|fuel IH]; intros board ok board'; [done|].
  rewrite solve_fuel_S. destruct (findBestCell board) as [[r0 c0]|] eqn:Hfind.
  - intros Hres Hfilled. apply findBestCell_inside in Hfind as [Hin Hempty].
    unfold empty_at in Hempty. cbn [fst snd] in Hempty.
    assert (Hne : (r0, c0) ≠ (r, c)) by (intros [= -> ->]; congruence).
    eapply attempt_keeps; [|done|done|done].
    intros b ok' b' Hcall. by eapply IH.
  - by intros [= _ <-].
Qed.

(** * Rows, columns and boxes of a completed grid *)

Lemma units_shape : Forall unit_shape units.
Proof. apply (bool_decide_unpack _). vm_compute. exact I. Qed.

Lemma complete_proper_cell board p :
  proper board → complete board → inside p →
  at_ board p.1 p.2 = Some (Num (cell_value board p))
  ∧ 1 ≤ cell_value board p ≤ 9
  ∧ ∀ q, inside q → q ≠ p → related p q → cell_value board q ≠ cell_value board p.
Proof.
  intros Hproper Hcomplete Hp. unfold cell_value.
  destruct (Hproper p Hp) as (v & Hv & Hcase). rewrite Hv.
  destruct Hcase as [->|[Hv19 Hfree]].
  { specialize (Hcomplete p Hp). apply holds_true in Hv. congruence. }
  split; [done|]. split; [done|]. intros q Hq Hne Hrel.
  destruct (Hproper q Hq) as (w & Hw & _). rewrite Hw. intros ->.
  specialize (Hfree q Hq Hne Hrel). apply holds_true in Hw. congruence.
Qed.

Lemma length_one {A} (l : list A) (p : A) :
  NoDup l → p ∈ l → (∀ x, x ∈ l → x = p) → length l = 1%nat.
Proof.
  intros Hnd Hin Hall. destruct l as [|a [|b l]]; [by apply elem_of_nil in Hin|done|].
  exfalso. assert (a = p) as -> by (apply Hall; by left).
  assert (b = p) as -> by (apply Hall; right; by left).
  apply NoDup_cons in Hnd as [Hnotin _]. apply Hnotin. by left.
Qed.

Lemma complete_proper_valid board :
  proper board → complete board → valid_sudoku board.
Proof.
  intros Hproper Hcomplete. split.
  { intros r c Hr Hc.
    destruct (complete_proper_cell board (r, c) Hproper Hcomplete) as (Hat & Hv & _); [done|].
    eauto. }
  intros u Hu d Hd.
  pose proof (proj1 (Forall_forall _ _) units_shape u Hu) as (Hnd & Hlen & Hins & Hrel).
  rewrite Forall_forall in Hins. rewrite Forall_forall in Hrel.
  (* the nine values of the unit are distinct digits: all digits occur *)
  assert (Hinj : ∀ p q, p ∈ u → q ∈ u → cell_value board p = cell_value board q → p = q).
  { intros p q Hp Hq Heq. destruct (decide (q = p)) as [|Hne]; [done|exfalso].
    destruct (complete_proper_cell board p Hproper Hcomplete (Hins p Hp)) as (_ & _ & Hfree).
    apply (Hfree q); [by apply Hins|done| |done].
    specialize (Hrel p Hp). rewrite Forall_forall in Hrel. by apply Hrel. }
  assert (Hperm : cell_value board <$> u ≡ₚ digits).
  { apply submseteq_length_Permutation.
    - apply NoDup_submseteq; [by apply NoDup_fmap_2_strong|].
      intros v (p & -> & Hp)%list_elem_of_fmap. apply elem_of_digits.
      by destruct (complete_proper_cell board p Hproper Hcomplete (Hins p Hp)) as (_ & ? & _).
    - rewrite length_fmap, Hlen. done. }
  assert (Hd' : d ∈ cell_value board <$> u) by (rewrite Hperm; by apply elem_of_digits).
  apply list_elem_of_fmap in Hd' as (p & -> & Hp).
  assert (Hholds : ∀ q, q ∈ u → holds board q.1 q.2 (cell_value board p) = true
                                ↔ cell_value board q = cell_value board p).
  { intros q Hq. rewrite holds_true.
    destruct (complete_proper_cell board q Hproper Hcomplete (Hins q Hq)) as (Hat & _).
    rewrite Hat. split; [by intros [= ->]|by intros ->]. }
  unfold occurrences. apply (length_one _ p).
  - by apply NoDup_filter.
  - apply list_elem_of_filter. split; [|done]. by apply Hholds.
  - intros q [Hq Hqu]%list_elem_of_filter. apply Hinj; try done. by apply Hholds.
Qed.

(** * Runs of the solver are functional, and [solve] computes them *)

Lemma solve_run_functional board ok1 board1 :
  solve_run board ok1 board1 →
  ∀ ok2 board2, solve_run board ok2 board2 → ok1 = ok2 ∧ board1 = board2.
Proof.
  intros Hrun.
  induction Hrun using solve_run_mut with
    (P0 := λ r c ns board ok1 board1 _,
       ∀ ok2 board2, attempt_run r c ns board ok2 board2 → ok1 = ok2 ∧ board1 = board2).
  all: intros ok2 board2 Hrun2; inversion Hrun2; subst; try congruence; try done.
  all: try match goal with
       | H1 : findBestCell ?b = Some _, H2 : findBestCell ?b = Some _ |- _ =>
           rewrite H1 in H2; simplify_eq
       end.
  all: repeat match goal with
       | IH : ∀ ok2 board2, solve_run ?b ok2 board2 → _, H : solve_run ?b _ _ |- _ =>
           apply IH in H as [? ?]; subst
       end; try done.
  all: match goal with
       | IH : ∀ ok2 board2, attempt_run _ _ _ _ ok2 board2 → _ |- _ => by apply IH
       end.
Qed.

Lemma attempt_run_of_fuel (rec : Grid → option (bool * Grid)) r c ns board ok board' :
  (∀ b ok' b', rec b = Some (ok', b') → solve_run b ok' b') →
  attempt rec r c ns board = Some (ok, board') → attempt_run r c ns board ok board'.
Proof.
  intros Hrec. revert board. induction ns as [|n ns IH]; intros board; simpl.
  { intros [= <- <-]. constructor. }
  destruct (isValid board r c n) eqn:Hvalid; [|intros; by apply run_skip, IH].
  destruct (rec (put board r c (Num n))) as [[[] b1]|] eqn:Hcall; [| |done].
  - intros [= <- <-]. by apply run_found, Hrec.
  - intros Hrest. eapply run_backtrack; [done|by apply Hrec|by apply IH].
Qed.

Lemma solve_run_of_fuel fuel board ok board' :
  solve_fuel fuel board = Some (ok, board') → solve_run board ok board'.
Proof.
  revert board ok board'. induction fuel as [|fuel IH]; intros board ok board'; [done|].
  rewrite solve_fuel_S. destruct (findBestCell board) as [[r c]|] eqn:Hfind.
  - intros Hres. eapply run_search; [done|]. by eapply attempt_run_of_fuel.
  - intros [= <- <-]. by apply run_full.
Qed.

(** Every call has a run, and it is the one [solve] computes. *)
Lemma solve_run_solve board : solve_run board (solve board).1 (solve board).2.
Proof.
  apply (solve_run_of_fuel (S (empties board))).
  rewrite solve_enough_fuel by lia. by destruct (solve board).
Qed.

Lemma solve_run_unique board ok board' :
  solve_run board ok board' ↔ solve board = (ok, board').
Proof.
  split.
  - intros Hrun. destruct (solve_run_functional _ _ _ (solve_run_solve board) _ _ Hrun).
    destruct (solve board). simpl in *. congruence.
  - intros Heq. pose proof (solve_run_solve board) as Hrun. by rewrite Heq in Hrun.
Qed.

Lemma generatePuzzle_run_of baseString difficulty :
  generatePuzzle_run baseString difficulty (generatePuzzle_of baseString difficulty).
Proof.
  unfold generatePuzzle_of. fold zeros. fold blank.
  pose proof (solve_run_solve (fill_solution baseString zeros)) as Hrun.
  destruct (solve (fill_solution baseString zeros)) as [[] sol]; simpl in *.
  - by apply load_solved.
  - by eapply load_failed.
Qed.

(** * The three puzzle definitions *)

Lemma solve_completion board full :
  properb board = true → properb full = true → completeb full = true →
  extendsb board full = true →
  ∃ sol, solve board = (true, sol) ∧ valid_sudoku sol
    ∧ ∀ r c, holds board r c 0 = false → at_ sol r c = at_ board r c.
Proof.
  intros Hb%properb_proper Hf%properb_proper Hc%completeb_complete He%extendsb_extends.
  destruct (solve_fuel_complete (S (empties board)) board full) as [sol Hsol]; try done; [lia|].
  exists sol. split; [by apply (solve_fuel_solve _ _ _ Hsol)|]. split.
  - destruct (solve_fuel_sound _ _ _ (Nat.lt_succ_diag_r _) Hb Hsol).
    by apply complete_proper_valid.
  - intros r c. by apply (solve_fuel_keeps _ _ _ _ _ _ Hsol).
Qed.

Lemma solve_initial difficulty :
  ∃ sol, solve (initial difficulty) = (true, sol) ∧ valid_sudoku sol
    ∧ ∀ r c, holds (initial difficulty) r c 0 = false
        → at_ sol r c = at_ (initial difficulty) r c.
Proof.
  apply (solve_completion _ (completion difficulty)); by destruct difficulty; vm_compute.
Qed.

Lemma generatePuzzle_Return difficulty :
  ∃ sol, generatePuzzle_of (PUZZLES difficulty) difficulty
           = Return (fill_puzzle (PUZZLES difficulty) blank, sol)
    ∧ solve (initial difficulty) = (true, sol).
Proof.
  destruct (solve_initial difficulty) as (sol & Hsol & _). exists sol. split; [|done].
  unfold generatePuzzle_of. fold zeros. fold blank.
  fold (initial difficulty). by rewrite Hsol.
Qed.

Lemma digits_split ns1 n ns2 m :
  digits = ns1 ++ n :: ns2 → m ∈ ns1 ↔ 1 ≤ m < n.
Proof.
  unfold digits. intros Heq.
  do 10 (destruct ns1 as [|? ns1];
         [simplify_eq/=; rewrite ?elem_of_cons, elem_of_nil; lia|]; simplify_eq/=).
Qed.

Lemma scan_row_major : scan = (λ i, (i / 9, i mod 9)%nat) <$> seq 0 81.
Proof. by vm_compute. Qed.

(** The candidate loop, read on [solve]. *)
Lemma solve_step board r c :
  findBestCell board = Some (r, c) →
  (solve board = (false, board)
    ∧ ∀ n, 1 ≤ n ≤ 9 → isValid board r c n = true →
        solve (put board r c (Num n)) = (false, put board r c (Num n)))
  ∨ (∃ n board',
       1 ≤ n ≤ 9 ∧ isValid board r c n = true
       ∧ solve (put board r c (Num n)) = (true, board')
       ∧ solve board = (true, board')
       ∧ ∀ m, 1 ≤ m < n → isValid board r c m = true →
           solve (put board r c (Num m)) = (false, put board r c (Num m))).
Proof.
  intros Hfind.
  pose proof (solve_enough_fuel (S (empties board)) board (Nat.lt_succ_diag_r _)) as Hrun.
  rewrite solve_fuel_S, Hfind in Hrun. cbv beta iota in Hrun.
  apply findBestCell_inside in Hfind as [Hin Hempty].
  apply holds_true in Hempty as Hat. cbn [fst snd] in Hat.
  destruct (attempt_spec (solve_fuel (empties board)) r c digits board Hat)
    as [[Hres Hall]|(ns1 & n & ns2 & b' & Hsplit & Hvalid & Hcall & Hres & Hbefore)].
  - intros n Hn%digits_nonzero _. apply solve_fuel_restores.
    by apply empties_put; [..|lia].
  - left. split; [rewrite Hrun in Hres; by injection Hres|]. intros n Hn Hvalid.
    apply (solve_fuel_solve (empties board)), Hall; [by apply elem_of_digits|done].
  - right. exists n, b'.
    assert (Hn : n ∈ digits) by (rewrite Hsplit; apply elem_of_app; right; by left).
    split; [by apply digits_nonzero|]. split; [done|].
    split; [by apply (solve_fuel_solve (empties board))|].
    split; [rewrite Hrun in Hres; by injection Hres|].
    intros m Hm Hvm. apply (solve_fuel_solve (empties board)), Hbefore; [|done].
    by apply (digits_split _ _ _ _ Hsplit).
Qed.

(** * The solver and the loader: main theorems *)

(** C1: for each of the three puzzle definitions the loader returns, and
    the solution grid it returns is a valid completed Sudoku: every cell
    holds an integer in 1..9, and every row, column and 3x3 box holds each
    of 1..9 exactly once. *)
Theorem generatePuzzle_valid_solution (difficulty : Difficulty) :
  ∃ puzzle solution,
    generatePuzzle difficulty = Return (puzzle, solution) ∧ valid_sudoku solution.
Proof.
  destruct (generatePuzzle_Return difficulty) as (sol & Hgen & Hsol).
  destruct (solve_initial difficulty) as (sol' & Hsol' & Hvalid & _).
  exists (fill_puzzle (PUZZLES difficulty) blank), sol.
  split; [unfold generatePuzzle; exact Hgen|]. congruence.
Qed.

(** C2: the search is deterministic.  [findBestCell] returns nothing
    exactly when no cell is empty; otherwise it returns the empty cell with
    the fewest valid candidates, the first such cell in row-major order.
    [solve] tries the candidates of that cell in ascending order: it
    succeeds with the least candidate whose recursive call succeeds, every
    smaller valid candidate having failed on the board with only that cell
    filled (the cell is emptied again after each failure), and it fails
    when every valid candidate fails. *)
Theorem solve_search_order (board : Grid) :
  scan = (λ i, (i / 9, i mod 9)%nat) <$> seq 0 81
  ∧ (findBestCell board = None ↔ ∀ q, inside q → ¬ empty_at board q)
  ∧ (findBestCell board = None → solve board = (true, board))
  ∧ (∀ r c, findBestCell board = Some (r, c) →
      (∃ before after, scan = before ++ (r, c) :: after ∧ empty_at board (r, c)
        ∧ (∀ q, q ∈ before → empty_at board q →
             (count_at board (r, c) < count_at board q)%nat)
        ∧ (∀ q, q ∈ after → empty_at board q →
             (count_at board (r, c) ≤ count_at board q)%nat))
      ∧ ((solve board = (false, board)
           ∧ ∀ n, 1 ≤ n ≤ 9 → isValid board r c n = true →
               solve (put board r c (Num n)) = (false, put board r c (Num n)))
         ∨ (∃ n board',
              1 ≤ n ≤ 9 ∧ isValid board r c n = true
              ∧ solve (put board r c (Num n)) = (true, board')
              ∧ solve board = (true, board')
              ∧ ∀ m, 1 ≤ m < n → isValid board r c m = true →
                  solve (put board r c (Num m)) = (false, put board r c (Num m)))))
  ∧ (∀ ok1 board1 ok2 board2,
      solve_run board ok1 board1 → solve_run board ok2 board2 →
      ok1 = ok2 ∧ board1 = board2).
Proof.
  split; [apply scan_row_major|]. split; [apply findBestCell_None|]. split.
  { intros Hnone. apply (solve_fuel_solve 1). by rewrite solve_fuel_S, Hnone. }
  split.
  - intros r c Hfind. split; [by apply findBestCell_Some|by apply solve_step].
  - intros ok1 board1 ok2 board2 Hrun1. by apply solve_run_functional.
Qed.

(** C3: loading is deterministic: two invocations of the loader on the
    same puzzle definition end with the same outcome, hence with
    identical solution grids. *)
Theorem generatePuzzle_deterministic (baseString : string) (difficulty : Difficulty)
    (out1 out2 : outcome (Board * Grid)) :
  generatePuzzle_run baseString difficulty out1 →
  generatePuzzle_run baseString difficulty out2 →
  out1 = out2.
Proof.
  intros Hrun1 Hrun2. inversion Hrun1; subst; inversion Hrun2; subst; try done.
  all: match goal with
       | H1 : solve_run ?b _ _, H2 : solve_run ?b _ _ |- _ =>
           destruct (solve_run_functional _ _ _ H1 _ _ H2); by subst
       end.
Qed.

Lemma generatePuzzle_deterministic_witness :
  generatePuzzle_run (PUZZLES easy) easy (generatePuzzle_of (PUZZLES easy) easy)
  ∧ generatePuzzle_of (PUZZLES easy) easy = generatePuzzle_of (PUZZLES easy) easy.
Proof.
  split; [exact (generatePuzzle_run_of (PUZZLES easy) easy)|].
  exact (generatePuzzle_deterministic (PUZZLES easy) easy _ _
           (generatePuzzle_run_of (PUZZLES easy) easy)
           (generatePuzzle_run_of (PUZZLES easy) easy)).
Defined.

(** C8: the solver terminates on every 9x9 grid: there is a result that
    every recursion bound above the number of empty cells (at most 81)
    yields, solvable grid or not. *)
Theorem solve_terminates (board : Grid) :
  grid9 board →
  ∃ ok board',
    (∀ fuel, (empties board < fuel)%nat → solve_fuel fuel board = Some (ok, board'))
    ∧ solve_run board ok board'
    ∧ (empties board ≤ 81)%nat.
Proof.
  intros _. exists (solve board).1, (solve board).2. split; [|split].
  - intros fuel Hfuel. rewrite solve_enough_fuel by done. by destruct (solve board).
  - apply solve_run_solve.
  - apply empties_le.
Qed.

Lemma solve_terminates_witness :
  grid9 dead_end
  ∧ ∃ ok board',
      (∀ fuel, (empties dead_end < fuel)%nat → solve_fuel fuel dead_end = Some (ok, board'))
      ∧ solve_run dead_end ok board'
      ∧ (empties dead_end ≤ 81)%nat.
Proof.
  assert (H : grid9 dead_end) by (apply (bool_decide_unpack _); vm_compute; exact I).
  split; [exact H|]. exact (solve_terminates dead_end H).
Defined.

(** C10: when [solve] returns false the grid is as it was when [solve]
    was called: every placement of the failed search has been reverted. *)
Theorem solve_failure_restores (fuel : nat) (board board' : Grid) :
  solve_fuel fuel board = Some (false, board') → board' = board.
Proof.
  intros Hres.
  destruct (solve_fuel_restores (S (empties board)) board) as (ok & b & Hrun & Hback); [lia|].
  apply solve_fuel_solve in Hres. apply solve_fuel_solve in Hrun.
  assert (ok = false ∧ b = board') as [-> ->] by (split; congruence). by apply Hback.
Qed.

Lemma solve_failure_restores_witness :
  solve_fuel 82 dead_end = Some (false, dead_end) ∧ dead_end = dead_end.
Proof.
  assert (H : solve_fuel 82 dead_end = Some (false, dead_end)) by (vm_compute; reflexivity).
  split; [exact H|]. exact (solve_failure_restores 82 dead_end dead_end H).
Defined.

(** * Properties of the controller *)

Lemma strict_eq_sym a b : strict_eq a b = strict_eq b a.
Proof. destruct a, b; simpl; try done. apply Z.eqb_sym. Qed.

Lemma differs_holds sol r c n : differs (Some sol) r c n = negb (holds sol r c n).
Proof. unfold differs, holds. by destruct (at_ sol r c). Qed.

Lemma at_Some_inside {A} (b : list (list A)) r c x :
  grid9 b → at_ b r c = Some x → inside (r, c).
Proof.
  intros [Hlen Hrows]. unfold at_, inside. cbn [fst snd].
  destruct (b !! r) as [line|] eqn:Hr; [|done]. intros Hc.
  apply lookup_lt_Some in Hr as Hlr. apply lookup_lt_Some in Hc.
  rewrite Forall_lookup in Hrows. specialize (Hrows _ _ Hr). simpl in Hrows. lia.
Qed.

Lemma grid9_put {A} (b : list (list A)) r c x : grid9 b → grid9 (put b r c x).
Proof.
  intros [Hlen Hrows]. unfold put. destruct (b !! r) as [line|] eqn:Hr; [|done].
  split; [by rewrite length_insert|].
  rewrite Forall_lookup in Hrows. apply Forall_lookup. intros i l Hl.
  destruct (decide (i = r)) as [->|Hne].
  - apply lookup_lt_Some in Hr as Hlr. rewrite list_lookup_insert_eq in Hl by done.
    injection Hl as <-. rewrite length_insert. by apply (Hrows r).
  - rewrite list_lookup_insert_ne in Hl by done. by apply (Hrows i).
Qed.

Lemma at_json_copy b r c : at_ (json_copy b) r c = json_cell <$> at_ b r c.
Proof.
  unfold at_, json_copy. rewrite list_lookup_fmap.
  destruct (b !! r) as [line|]; [|done]. simpl.
  by rewrite list_lookup_fmap.
Qed.

Lemma json_copy_id b :
  (∀ r c cell, at_ b r c = Some cell → value cell ≠ Some NaN) → json_copy b = b.
Proof.
  intros Hnum. unfold json_copy.
  apply list_eq. intros r. rewrite list_lookup_fmap.
  destruct (b !! r) as [line|] eqn:Hr; [|done]. simpl. f_equal.
  apply list_eq. intros c. rewrite list_lookup_fmap.
  destruct (line !! c) as [cell|] eqn:Hc; [|done]. simpl. f_equal.
  specialize (Hnum r c cell). unfold at_ in Hnum. rewrite Hr in Hnum.
  specialize (Hnum Hc). destruct cell as [[[v|]|] g i]; done.
Qed.

Lemma checkWin_spec sol b :
  checkWin sol b = true ↔
  ∀ r c, (r < 9)%nat → (c < 9)%nat → cell_matches sol b r c = true.
Proof.
  unfold checkWin. rewrite forallb_seq. split.
  - intros H r c Hr Hc. specialize (H r Hr). rewrite forallb_seq in H. by apply H.
  - intros H r Hr. apply forallb_seq. intros c Hc. by apply H.
Qed.

Lemma checkWin_false sol b r c :
  (r < 9)%nat → (c < 9)%nat → cell_matches sol b r c = false → checkWin sol b = false.
Proof.
  intros Hr Hc Hcell. apply not_true_iff_false. rewrite checkWin_spec.
  intros H. specialize (H r c Hr Hc). congruence.
Qed.

Lemma concat_lookup_rows {A} (b : list (list A)) i :
  Forall (λ line, length line = 9%nat) b →
  concat b !! i = at_ b (i / 9) (i mod 9).
Proof.
  intros Hrows. revert i. induction Hrows as [|line b Hline _ IH]; intros i.
  { by destruct (i / 9)%nat. }
  change (concat (line :: b)) with (line ++ concat b).
  destruct (decide (i < 9)%nat) as [Hlt|Hge].
  - rewrite lookup_app_l by lia. unfold at_.
    rewrite Nat.div_small, Nat.mod_small by done. done.
  - rewrite lookup_app_r by lia. rewrite Hline, IH.
    replace i with ((i - 9) + 1 * 9)%nat at 3 4 by lia.
    rewrite Nat.div_add, Nat.Div0.mod_add by lia.
    unfold at_. by rewrite Nat.add_1_r.
Qed.

Lemma firstEmpty_Some b i :
  Forall (λ line, length line = 9%nat) b → firstEmpty b = Some i →
  ∃ cell, at_ b (i / 9) (i mod 9) = Some cell ∧ value cell = None ∧ isGiven cell = false.
Proof.
  intros Hrows. unfold firstEmpty.
  destruct (list_find _ (concat b)) as [[j cell]|] eqn:Hfind; [|done].
  cbn -[Nat.div Nat.modulo]. intros [= ->].
  apply list_find_Some in Hfind as (Hlook & [Hv Hg] & _).
  exists cell. by rewrite <- concat_lookup_rows.
Qed.

(** The equation of [handleNumberInput] on a selected cell that is not given. *)
Lemma handleNumberInput_selected s b row col cell num :
  status s = playing → board s = Some b →
  selectedCell s = Some (mkPosition row col) →
  at_ b row col = Some cell → isGiven cell = false →
  handleNumberInput num s =
  commit
    (put (json_copy b) row col
       (match num with
        | None => mkCell None false false
        | Some n => mkCell (Some (Num n)) false (differs (solution s) row col n)
        end))
    (selectedCell s)
    (match num with
     | None => errors s
     | Some n =>
         if differs (solution s) row col n && negb (isInvalid cell)
         then S (errors s) else errors s
     end) s.
Proof.
  intros Hst Hb Hsel Hat Hg. unfold handleNumberInput.
  rewrite Hst, Hb, Hsel, Hat, Hg, at_json_copy, Hat. simpl. rewrite Hg.
  by destruct num.
Qed.

Lemma handleNumberInput_given s b row col cell num :
  board s = Some b → selectedCell s = Some (mkPosition row col) →
  at_ b row col = Some cell → isGiven cell = true →
  handleNumberInput num s = s.
Proof.
  intros Hb Hsel Hat Hg. unfold handleNumberInput.
  rewrite Hb, Hsel, Hat, Hg. by destruct (status s).
Qed.

Lemma commit_status nb sel errs s sol :
  solution s = Some sol →
  status (commit nb sel errs s) = if checkWin sol nb then solved else status s.
Proof. intros Hsol. unfold commit. by rewrite Hsol. Qed.

Lemma cell_matches_put sol b r c cell :
  is_Some (at_ b r c) →
  cell_matches sol (put b r c cell) r c =
  match value cell, at_ sol r c with
  | Some v, Some w => strict_eq v w
  | _, _ => false
  end.
Proof. intros H. unfold cell_matches. by rewrite at_put_eq. Qed.

(** * The invariant of the session *)

Lemma loaded_cells difficulty :
  forallb (loaded_cell (fill_puzzle (PUZZLES difficulty) blank) (initial difficulty)) scan
  = true.
Proof. by destruct difficulty; vm_compute. Qed.

Lemma loaded_fresh (puzzle : Board) (init sol : Grid) :
  grid9 puzzle →
  forallb (loaded_cell puzzle init) scan = true →
  (∀ r c, holds init r c 0 = false → at_ sol r c = at_ init r c) →
  ∀ r c cell, at_ puzzle r c = Some cell → cell_fresh sol r c cell.
Proof.
  intros Hgrid Hcells Hkeeps r c cell Hat.
  pose proof (at_Some_inside _ _ _ _ Hgrid Hat) as Hin.
  pose proof (proj1 (forallb_scan _) Hcells (r, c) Hin) as Hcell.
  unfold loaded_cell in Hcell. cbn [fst snd] in Hcell. rewrite Hat in Hcell.
  destruct (at_ init r c) as [[v|]|] eqn:Hinit; [|done..].
  destruct (v =? 0) eqn:Hv; apply bool_decide_eq_true in Hcell as ->; [done|].
  unfold cell_fresh. simpl.
  assert (Hholds : holds sol r c v = true).
  { apply holds_true. rewrite Hkeeps; [done|]. unfold holds. rewrite Hinit. simpl.
    by rewrite Z.eqb_sym. }
  by rewrite Hholds.
Qed.

Lemma loaded_grid9 difficulty : grid9 (fill_puzzle (PUZZLES difficulty) blank).
Proof. destruct difficulty; apply (bool_decide_unpack _); vm_compute; exact I. Qed.

Lemma startGame_playing diff s :
  ∃ sol, startGame diff s =
           mkSession playing diff (Some (fill_puzzle (PUZZLES diff) blank)) (Some sol) None 0 0
    ∧ solve (initial diff) = (true, sol).
Proof.
  destruct (generatePuzzle_Return diff) as (sol & Hgen & Hsol). exists sol.
  split; [|done]. unfold startGame, startGame_on. rewrite Hgen. reflexivity.
Qed.

Lemma startGame_inv diff s : session_inv (startGame diff s).
Proof.
  destruct (startGame_playing diff s) as (sol & -> & Hsol).
  destruct (solve_initial diff) as (sol' & Hsol' & _ & Hkeeps).
  assert (sol' = sol) as -> by congruence. clear Hsol Hsol'.
  split; [apply loaded_grid9|].
  exact (loaded_fresh _ _ _ (loaded_grid9 diff) (loaded_cells diff) Hkeeps).
Qed.

Lemma put_fresh sol (b : Board) row col x :
  is_Some (at_ b row col) →
  (∀ r c cell, at_ b r c = Some cell → cell_fresh sol r c cell) →
  cell_fresh sol row col x →
  ∀ r c cell, at_ (put b row col x) r c = Some cell → cell_fresh sol r c cell.
Proof.
  intros Hsome Hall Hx r c cell.
  destruct (decide ((row, col) = (r, c))) as [[= <- <-]|Hne].
  - rewrite at_put_eq by done. by intros [= <-].
  - rewrite at_put_ne by done. apply Hall.
Qed.

Lemma commit_inv nb sel errs s sol :
  solution s = Some sol → grid9 nb →
  (∀ r c cell, at_ nb r c = Some cell → cell_fresh sol r c cell) →
  session_inv (commit nb sel errs s).
Proof. intros Hsol Hgrid Hall. unfold session_inv, commit. simpl. by rewrite Hsol. Qed.

Lemma fresh_json_copy sol (b : Board) :
  (∀ r c cell, at_ b r c = Some cell → cell_fresh sol r c cell) → json_copy b = b.
Proof.
  intros Hall. apply json_copy_id. intros r c cell Hat Hnan.
  specialize (Hall r c cell Hat). unfold cell_fresh in Hall. by rewrite Hnan in Hall.
Qed.

Lemma handleNumberInput_inv num s : session_inv s → session_inv (handleNumberInput num s).
Proof.
  intros Hinv. unfold handleNumberInput.
  destruct (status s) eqn:Hst; try done.
  destruct (board s) as [b|] eqn:Hb; [|done].
  unfold session_inv in Hinv. rewrite Hb in Hinv.
  destruct (solution s) as [sol|] eqn:Hsol; [|done].
  destruct Hinv as [Hgrid Hall]. rewrite (fresh_json_copy sol b Hall).
  assert (Hrestore : session_inv s) by (unfold session_inv; by rewrite Hb, Hsol).
  destruct (selectedCell s) as [[row col]|] eqn:Hsel.
  - destruct (at_ b row col) as [cell|] eqn:Hat; [|done].
    destruct (isGiven cell) eqn:Hg; [done|].
    destruct num as [n|]; (eapply commit_inv; [done|by apply grid9_put|]);
      (apply put_fresh; [by rewrite Hat|done|]); unfold cell_fresh;
      cbn [value isInvalid isGiven].
    + rewrite differs_holds. by split.
    + done.
  - destruct (firstEmpty b) as [i|] eqn:Hfirst; [|done].
    destruct num as [n|]; [|done].
    destruct (firstEmpty_Some b i (proj2 Hgrid) Hfirst) as (cell & Hat & Hv & Hg).
    rewrite Hat. eapply commit_inv; [done|by apply grid9_put|].
    apply put_fresh; [by rewrite Hat|done|]. unfold cell_fresh.
    cbn [value isInvalid isGiven].
    rewrite differs_holds. split; [done|]. by rewrite Hg.
Qed.

Lemma handleKeyDown_inv key s : session_inv s → session_inv (handleKeyDown key s).
Proof.
  intros Hinv. unfold handleKeyDown.
  destruct (status s); try done. destruct (selectedCell s) as [[row col]|]; [|done].
  destruct key; try done; try by apply handleNumberInput_inv.
  destruct (parseInt (Some ch)) as [n|]; [|done].
  destruct (n =? 0); [done|]. by apply handleNumberInput_inv.
Qed.

Lemma step_inv s e : session_inv s → session_inv (step s e).
Proof.
  intros Hinv. destruct e; cbn [step].
  - apply startGame_inv.
  - exact Hinv.
  - exact Hinv.
  - exact Hinv.
  - by apply handleNumberInput_inv.
  - destruct (selectedCell s); [by apply handleNumberInput_inv|exact Hinv].
  - by apply handleKeyDown_inv.
  - exact Hinv.
Qed.

Lemma reachable_inv s : reachable s → session_inv s.
Proof. induction 1; [done|by apply step_inv]. Qed.

Lemma inv_never_stale s : session_inv s → never_stale s.
Proof.
  unfold session_inv, never_stale. intros Hinv.
  destruct (board s) as [b|], (solution s) as [sol|]; try done.
  - split; [done|]. intros ? ? [= <-] [= <-] r c cell Hat.
    destruct Hinv as [_ Hall]. specialize (Hall r c cell Hat).
    unfold cell_fresh in Hall. destruct (value cell) as [[v|]|]; [|done|].
    + destruct Hall as [Hflag Hgiven]. rewrite Hflag. split; [|split].
      * rewrite negb_true_iff. split; [by exists v|]. by intros (w & [= <-] & Hw).
      * done.
      * intros Hg. by rewrite (Hgiven Hg).
    + rewrite Hall. split; [|done]. split; [done|]. by intros (v & ? & _).
Qed.

Lemma demo_reachable : reachable demo_session.
Proof.
  unfold demo_session, demo_events. cbn [fold_left].
  repeat (apply reachable_step; [|]); [apply reachable_initial|..].
  - reflexivity.
  - exact I.
  - split; [|split; [|split; lia]].
    + vm_compute. intros [=].
    + vm_compute. eexists. reflexivity.
  - split; [|lia]. vm_compute. reflexivity.
Qed.

(** C7: in every reachable session state, a cell's [isInvalid] is true
    exactly when the cell holds a value that differs from the solution
    entry; empty cells and given cells have it false; every operation of
    the controller keeps it so. *)
Theorem isInvalid_never_stale (s : Session) :
  reachable s → never_stale s ∧ ∀ e, enabled s e → never_stale (step s e).
Proof.
  intros Hreach. split; [by apply inv_never_stale, reachable_inv|].
  intros e He. by apply inv_never_stale, step_inv, reachable_inv.
Qed.

Lemma isInvalid_never_stale_witness :
  reachable demo_session
  ∧ never_stale demo_session
  ∧ ∀ e, enabled demo_session e → never_stale (step demo_session e).
Proof.
  split; [exact demo_reachable|]. exact (isInvalid_never_stale demo_session demo_reachable).
Defined.

(** C9: when the solver fails on the puzzle definition [startGame]
    loads, [startGame] still returns a session: the one it was called on,
    with status [menu]. *)
Theorem startGame_failure_menu (baseString : string) (diff : Difficulty) (s : Session)
    (board' : Grid) :
  solve (fill_solution baseString zeros) = (false, board') →
  startGame_on baseString diff s = setStatus menu s
  ∧ status (startGame_on baseString diff s) = menu.
Proof.
  intros Hfail. unfold startGame_on, generatePuzzle_of. fold zeros. rewrite Hfail.
  split; reflexivity.
Qed.

Lemma startGame_failure_menu_witness :
  solve (fill_solution dead_end_definition zeros) = (false, dead_end)
  ∧ startGame_on dead_end_definition hard demo_session = setStatus menu demo_session
  ∧ status (startGame_on dead_end_definition hard demo_session) = menu.
Proof.
  assert (H : solve (fill_solution dead_end_definition zeros) = (false, dead_end))
    by (vm_compute; reflexivity).
  split; [exact H|].
  exact (startGame_failure_menu dead_end_definition hard demo_session dead_end H).
Defined.

(** * Input on given cells and on entered cells *)

Lemma handleKeyDown_given s b row col cell key :
  board s = Some b → selectedCell s = Some (mkPosition row col) →
  at_ b row col = Some cell → isGiven cell = true →
  key = Backspace ∨ key = Delete ∨ (∃ ch, key = Typed ch) →
  handleKeyDown key s = s.
Proof.
  intros Hb Hsel Hat Hg Hkey. unfold handleKeyDown.
  pose proof (handleNumberInput_given s b row col cell) as Hno.
  destruct (status s); try done. rewrite Hsel.
  destruct Hkey as [->|[->|[ch ->]]]; [by apply Hno..|].
  destruct (parseInt (Some ch)) as [n|]; [|done].
  destruct (n =? 0); [done|]. by apply Hno.
Qed.

(** C6: with a given cell selected, neither entering a digit nor erasing
    changes anything: the session after the operation is the session
    before it (that cell, every other cell and the error count
    included), whether the input comes from the number pad, the Erase
    button or the keyboard. *)
Theorem given_cell_immutable (s : Session) (b : Board) (row col : nat) (cell : Cell) :
  board s = Some b → selectedCell s = Some (mkPosition row col) →
  at_ b row col = Some cell → isGiven cell = true →
  (∀ num, handleNumberInput num s = s)
  ∧ (∀ digit, step s (ClickPad digit) = s)
  ∧ step s ClickErase = s
  ∧ step s (KeyDown Backspace) = s
  ∧ step s (KeyDown Delete) = s
  ∧ (∀ ch, step s (KeyDown (Typed ch)) = s).
Proof.
  intros Hb Hsel Hat Hg.
  pose proof (handleNumberInput_given s b row col cell) as Hno.
  pose proof (handleKeyDown_given s b row col cell) as Hkey.
  split; [intros; by apply Hno|]. split; [intros; by apply Hno|].
  split; [cbn [step]; rewrite Hsel; by apply Hno|].
  split; [apply Hkey; auto|]. split; [apply Hkey; auto|].
  intros ch. apply Hkey; eauto.
Qed.

Lemma grid9_json_copy b : grid9 b → grid9 (json_copy b).
Proof.
  intros [Hlen Hrows]. unfold json_copy. split; [by rewrite length_fmap|].
  apply Forall_fmap. eapply Forall_impl; [done|]. intros line Hline. simpl.
  by rewrite length_fmap.
Qed.

Lemma cell_matches_wrong sol (b : Board) row col x n :
  is_Some (at_ b row col) → holds sol row col n = false →
  cell_matches sol (put b row col (mkCell (Some (Num n)) false x)) row col = false.
Proof.
  intros Hsome Hwrong. rewrite cell_matches_put by done. cbn [value].
  unfold holds in Hwrong. destruct (at_ sol row col) as [w|]; [|done].
  by rewrite strict_eq_sym.
Qed.

Lemma cell_matches_right sol (b : Board) row col x n :
  is_Some (at_ b row col) → holds sol row col n = true →
  cell_matches sol (put b row col (mkCell (Some (Num n)) false x)) row col = true.
Proof.
  intros Hsome Hright. rewrite cell_matches_put by done. cbn [value].
  unfold holds in Hright. destruct (at_ sol row col) as [w|]; [|done].
  by rewrite strict_eq_sym.
Qed.

(** The session after an input on a selected cell that is not given. *)
Lemma handleNumberInput_written s b sol row col cell num :
  status s = playing → board s = Some b → solution s = Some sol → grid9 b →
  selectedCell s = Some (mkPosition row col) →
  at_ b row col = Some cell → isGiven cell = false →
  let written :=
    match num with
    | None => mkCell None false false
    | Some n => mkCell (Some (Num n)) false (negb (holds sol row col n))
    end in
  let newBoard := put (json_copy b) row col written in
  let s' := handleNumberInput num s in
  board s' = Some newBoard ∧ solution s' = Some sol
  ∧ selectedCell s' = Some (mkPosition row col)
  ∧ grid9 newBoard ∧ at_ newBoard row col = Some written
  ∧ status s' = (if checkWin sol newBoard then solved else playing)
  ∧ errors s' =
      match num with
      | None => errors s
      | Some n =>
          if negb (holds sol row col n) && negb (isInvalid cell)
          then S (errors s) else errors s
      end.
Proof.
  intros Hst Hb Hsol Hgrid Hsel Hat Hg. cbv zeta.
  rewrite (handleNumberInput_selected s b row col cell num) by done.
  rewrite Hsol. unfold commit. rewrite Hsol. cbn [board solution selectedCell status errors].
  assert (Hsome : is_Some (at_ (json_copy b) row col)) by (rewrite at_json_copy, Hat; by eexists).
  destruct num as [n|]; rewrite ?differs_holds, Hst, Hsel;
    (split_and!;
       [reflexivity|reflexivity|reflexivity|by apply grid9_put, grid9_json_copy
       |by apply at_put_eq|reflexivity|reflexivity]).
Qed.

(** C4: on a selected cell that is not given, a digit that differs from
    the solution entry marks the cell invalid and adds exactly one error
    when the cell was not invalid before the write, none when it was
    (so a further wrong digit adds none); the matching digit marks the
    cell not invalid and adds no error; erasing empties the cell without
    touching the count, and a wrong digit after erasing counts again. *)
Theorem enter_digit_error_count (s : Session) (b : Board) (sol : Grid)
    (row col : nat) (cell : Cell) (n : Z) :
  status s = playing → board s = Some b → solution s = Some sol → grid9 b →
  selectedCell s = Some (mkPosition row col) →
  at_ b row col = Some cell → isGiven cell = false →
  let entered := handleNumberInput (Some n) s in
  let erased := handleNumberInput None s in
  (holds sol row col n = false →
     (∃ b', board entered = Some b'
        ∧ at_ b' row col = Some (mkCell (Some (Num n)) false true))
     ∧ errors entered = (if isInvalid cell then errors s else S (errors s))
     ∧ (∀ m, holds sol row col m = false →
          errors (handleNumberInput (Some m) entered) = errors entered)
     ∧ errors (handleNumberInput (Some n) erased) = S (errors s))
  ∧ (holds sol row col n = true →
     (∃ b', board entered = Some b'
        ∧ at_ b' row col = Some (mkCell (Some (Num n)) false false))
     ∧ errors entered = errors s)
  ∧ (∃ b', board erased = Some b' ∧ at_ b' row col = Some (mkCell None false false))
  ∧ errors erased = errors s.
Proof.
  intros Hst Hb Hsol Hgrid Hsel Hat Hg entered erased.
  pose proof (at_Some_inside _ _ _ _ Hgrid Hat) as [Hrow Hcol]. cbn [fst snd] in Hrow, Hcol.
  assert (Hsome : is_Some (at_ (json_copy b) row col)) by (rewrite at_json_copy, Hat; by eexists).
  destruct (handleNumberInput_written s b sol row col cell (Some n))
    as (Hb1 & Hsol1 & Hsel1 & Hgrid1 & Hat1 & Hst1 & Herr1); try done.
  destruct (handleNumberInput_written s b sol row col cell None)
    as (Hb0 & Hsol0 & Hsel0 & Hgrid0 & Hat0 & Hst0 & Herr0); try done.
  fold entered in Hb1, Hsol1, Hsel1, Hst1, Herr1.
  fold erased in Hb0, Hsol0, Hsel0, Hst0, Herr0.
  split; [|split; [|split]].
  - intros Hwrong. rewrite Hwrong in *. cbn [negb andb] in *.
    split; [by eexists|]. split; [by destruct (isInvalid cell)|]. split.
    + intros m Hm.
      rewrite (checkWin_false sol _ row col Hrow Hcol) in Hst1
        by (by apply cell_matches_wrong).
      destruct (handleNumberInput_written entered _ sol row col _ (Some m)
                  Hst1 Hb1 Hsol1 Hgrid1 Hsel1 Hat1 eq_refl) as (_ & _ & _ & _ & _ & _ & ->).
      rewrite Hm. reflexivity.
    + rewrite (checkWin_false sol _ row col Hrow Hcol) in Hst0
        by (by rewrite cell_matches_put).
      destruct (handleNumberInput_written erased _ sol row col _ (Some n)
                  Hst0 Hb0 Hsol0 Hgrid0 Hsel0 Hat0 eq_refl) as (_ & _ & _ & _ & _ & _ & ->).
      rewrite Hwrong, Herr0. reflexivity.
  - intros Hright. rewrite Hright in *. cbn [negb andb] in *.
    split; [by eexists|done].
  - by eexists.
  - done.
Qed.

(** * Win detection *)

Lemma cell_matches_true sol b r c :
  cell_matches sol b r c = true ↔
  ∃ cell v, at_ b r c = Some cell ∧ value cell = Some (Num v)
    ∧ at_ sol r c = Some (Num v).
Proof.
  unfold cell_matches. split.
  - destruct (at_ b r c) as [cell|]; [|done].
    destruct (value cell) as [[v|]|] eqn:Hv, (at_ sol r c) as [[w|]|]; simpl; try done.
    intros ->%Z.eqb_eq. by exists cell, w.
  - intros (cell & v & -> & -> & ->). simpl. apply Z.eqb_refl.
Qed.

Lemma checkWin_all_match sol b : checkWin sol b = true ↔ all_match sol b.
Proof.
  rewrite checkWin_spec. unfold all_match.
  split; intros H r c Hr Hc; apply cell_matches_true; by apply H.
Qed.

Lemma commit_solved nb sel errs s :
  status (commit nb sel errs s) = solved →
  status s = solved ∨ ∃ sol, solution s = Some sol ∧ checkWin sol nb = true.
Proof.
  unfold commit. cbn [status]. destruct (solution s) as [sol|]; [|by left].
  destruct (checkWin sol nb) eqn:Hwin; [|by left]. right. by exists sol.
Qed.

Lemma handleNumberInput_cases num s :
  handleNumberInput num s = s
  ∨ ∃ nb sel errs, handleNumberInput num s = commit nb sel errs s.
Proof.
  unfold handleNumberInput. repeat case_match; eauto.
Qed.

Lemma handleKeyDown_cases key s :
  handleKeyDown key s = s
  ∨ (∃ p, handleKeyDown key s = setSelectedCell p s)
  ∨ ∃ nb sel errs, handleKeyDown key s = commit nb sel errs s.
Proof.
  unfold handleKeyDown.
  repeat case_match; eauto;
    match goal with
    | |- context [handleNumberInput ?num s] =>
        destruct (handleNumberInput_cases num s) as [->|(? & ? & ? & ->)]; eauto 10
    end.
Qed.

Lemma handleNumberInput_solved num s :
  status (handleNumberInput num s) = solved →
  status s = solved
  ∨ ∃ b' sol, board (handleNumberInput num s) = Some b'
      ∧ solution (handleNumberInput num s) = Some sol ∧ checkWin sol b' = true.
Proof.
  destruct (handleNumberInput_cases num s) as [->|(nb & sel & errs & ->)]; [by left|].
  intros [Hs|(sol & Hsol & Hwin)]%commit_solved; [by left|right].
  by exists nb, sol.
Qed.

Lemma handleKeyDown_solved key s :
  status (handleKeyDown key s) = solved →
  status s = solved
  ∨ ∃ b' sol, board (handleKeyDown key s) = Some b'
      ∧ solution (handleKeyDown key s) = Some sol ∧ checkWin sol b' = true.
Proof.
  destruct (handleKeyDown_cases key s) as [->|[[p ->]|(nb & sel & errs & ->)]];
    [by left|by left|].
  intros [Hs|(sol & Hsol & Hwin)]%commit_solved; [by left|right].
  by exists nb, sol.
Qed.

Lemma step_solved s e :
  status (step s e) = solved →
  status s = solved
  ∨ ∃ b' sol, board (step s e) = Some b'
      ∧ solution (step s e) = Some sol ∧ checkWin sol b' = true.
Proof.
  destruct e; cbn [step].
  - destruct (startGame_playing (difficulty s) s) as (sol & -> & _). cbn [status].
    intros [=].
  - cbn [setStatus status]. intros [=].
  - by left.
  - by left.
  - apply handleNumberInput_solved.
  - destruct (selectedCell s); [apply handleNumberInput_solved|by left].
  - apply handleKeyDown_solved.
  - by left.
Qed.

(** C5: the win check holds exactly when every cell holds a value equal
    to the solution entry, so one empty or mismatching cell among 81
    rules a win out; after a write on a selected cell the status is
    [solved] exactly when the written board passes the check; and no
    operation makes the status [solved] other than with a board that
    passes it. *)
Theorem solved_exactly_on_full_match :
  (∀ sol b, checkWin sol b = true ↔ all_match sol b)
  ∧ (∀ sol b r c cell,
       (r < 9)%nat → (c < 9)%nat → at_ b r c = Some cell →
       value cell = None ∨ at_ sol r c ≠ value cell →
       checkWin sol b = false)
  ∧ (∀ s b sol row col cell num,
       status s = playing → board s = Some b → solution s = Some sol → grid9 b →
       selectedCell s = Some (mkPosition row col) →
       at_ b row col = Some cell → isGiven cell = false →
       ∃ b', board (handleNumberInput num s) = Some b'
         ∧ (status (handleNumberInput num s) = solved ↔ all_match sol b'))
  ∧ (∀ s e,
       status (step s e) = solved →
       status s = solved
       ∨ ∃ b' sol, board (step s e) = Some b'
           ∧ solution (step s e) = Some sol ∧ all_match sol b').
Proof.
  split; [apply checkWin_all_match|]. split; [|split].
  - intros sol b r c cell Hr Hc Hat Hbad. apply (checkWin_false sol b r c Hr Hc).
    apply not_true_iff_false. intros (cell' & v & Hat' & Hv & Hsol)%cell_matches_true.
    assert (cell' = cell) as -> by congruence.
    destruct Hbad as [Hnone|Hne]; congruence.
  - intros s b sol row col cell num Hst Hb Hsol Hgrid Hsel Hat Hg.
    destruct (handleNumberInput_written s b sol row col cell num)
      as (Hb' & _ & _ & _ & _ & Hst' & _); try done.
    eexists. split; [exact Hb'|]. rewrite Hst', <- checkWin_all_match.
    by destruct (checkWin sol _).
  - intros s e Hsolved.
    destruct (step_solved s e Hsolved) as [?|(b' & sol & Hb' & Hsol' & Hwin)]; [by left|].
    right. exists b', sol. by rewrite <- checkWin_all_match.
Qed.

(** * Concrete sessions *)

Lemma demo_session_played : demo_session = played.
Proof. vm_compute. reflexivity. Qed.

Lemma on_given_reached :
  fold_left step [SelectDifficulty easy; ClickStart; ClickCell 0 2] initial_session
  = on_given.
Proof. vm_compute. reflexivity. Qed.

(** Win detection on a whole game: with 80 cells right and the first
    one empty the session is in play; the right digit there wins, and a
    wrong one does not. *)
Example one_left_not_won :
  status one_left = playing
  ∧ errors one_left = 0%nat
  ∧ status (step (step one_left (ClickCell 0 0)) (ClickPad 4)) = solved
  ∧ status (step (step one_left (ClickCell 0 0)) (ClickPad 9)) = playing
  ∧ errors (step (step one_left (ClickCell 0 0)) (ClickPad 9)) = 1%nat.
Proof. vm_compute. repeat split. Qed.

Lemma enter_digit_error_count_witness :
  status played = playing
  ∧ board played = Some demo_board
  ∧ solution played = Some easy_completion
  ∧ grid9 demo_board
  ∧ selectedCell played = Some (mkPosition 0 0)
  ∧ at_ demo_board 0 0 = Some (mkCell (Some (Num 9)) false true)
  ∧ isGiven (mkCell (Some (Num 9)) false true) = false
  ∧ holds easy_completion 0 0 7 = false
  ∧ errors (handleNumberInput (Some 7) played) = errors played
  ∧ errors (handleNumberInput (Some 7) (handleNumberInput None played)) = S (errors played).
Proof.
  assert (Hgrid : grid9 demo_board) by (apply (bool_decide_unpack _); vm_compute; exact I).
  assert (Hat : at_ demo_board 0 0 = Some (mkCell (Some (Num 9)) false true))
    by (vm_compute; reflexivity).
  assert (Hwrong : holds easy_completion 0 0 7 = false) by (vm_compute; reflexivity).
  pose proof (enter_digit_error_count played demo_board easy_completion 0 0
                (mkCell (Some (Num 9)) false true) 7
                eq_refl eq_refl eq_refl Hgrid eq_refl Hat eq_refl) as (Hrule & _).
  destruct (Hrule Hwrong) as (_ & Herr & _ & Hagain).
  split; [reflexivity|]. split; [reflexivity|]. split; [reflexivity|].
  split; [exact Hgrid|]. split; [reflexivity|]. split; [exact Hat|].
  split; [reflexivity|]. split; [exact Hwrong|]. split; [exact Herr|exact Hagain].
Defined.

Lemma given_cell_immutable_witness :
  board on_given = Some (fill_puzzle (PUZZLES easy) blank)
  ∧ selectedCell on_given = Some (mkPosition 0 2)
  ∧ at_ (fill_puzzle (PUZZLES easy) blank) 0 2 = Some (mkCell (Some (Num 3)) true false)
  ∧ isGiven (mkCell (Some (Num 3)) true false) = true
  ∧ step on_given (ClickPad 5) = on_given
  ∧ step on_given ClickErase = on_given.
Proof.
  assert (Hat : at_ (fill_puzzle (PUZZLES easy) blank) 0 2
                = Some (mkCell (Some (Num 3)) true false)) by (vm_compute; reflexivity).
  pose proof (given_cell_immutable on_given (fill_puzzle (PUZZLES easy) blank) 0 2
                (mkCell (Some (Num 3)) true false) eq_refl eq_refl Hat eq_refl)
    as (_ & Hpad & Herase & _).
  split; [reflexivity|]. split; [reflexivity|]. split; [exact Hat|].
  split; [reflexivity|]. split; [apply Hpad|exact Herase].
Defined.


(** * Part IV: further properties of the solver *)

Lemma candidates_positive board r c n :
  1 ≤ n ≤ 9 → isValid board r c n = true → (0 < candidates board r c)%nat.
Proof.
  intros Hn Hvalid. unfold candidates.
  assert (Hin : n ∈ filter (λ n, isValid board r c n = true) digits).
  { apply list_elem_of_filter. split; [done|by apply elem_of_digits]. }
  destruct (filter _ digits); [by apply elem_of_nil in Hin|simpl; lia].
Qed.

Lemma solve_extends board ok board' :
  solve board = (ok, board') → extends board board'.
Proof.
  intros Hsolve [r c] _. cbn [fst snd]. unfold empty_at. cbn [fst snd].
  destruct (holds board r c 0) eqn:Hempty; [by left|right]. symmetry.
  eapply (solve_fuel_keeps (S (empties board))); [|done].
  rewrite solve_enough_fuel by lia. by rewrite Hsolve.
Qed.

(** X1: on a cell of the 9x9 grid, [isValid] accepts a number exactly
    when no cell of the same row, the same column or the same 3x3 box
    holds it. *)
Theorem isValid_iff_unoccupied (board : Grid) (r c : nat) (n : Z) :
  (r < 9)%nat → (c < 9)%nat →
  (isValid board r c n = true ↔
   ∀ r' c', (r' < 9)%nat → (c' < 9)%nat →
     r' = r ∨ c' = c ∨ ((r' / 3)%nat = (r / 3)%nat ∧ (c' / 3)%nat = (c / 3)%nat) →
     at_ board r' c' ≠ Some (Num n)).
Proof.
  intros Hr Hc. rewrite isValid_spec by done. split.
  - intros H r' c' Hr' Hc' Hrel Hat. apply holds_true in Hat.
    assert (Hfree : holds board r' c' n = false); [|congruence].
    apply (H (r', c')); [done|].
    unfold related. cbn [fst snd]. destruct Hrel as [->|[->|[-> ->]]]; auto.
  - intros H [r' c'] [Hr' Hc'] Hrel. cbn [fst snd] in *.
    apply not_true_iff_false. rewrite holds_true. apply H; [done..|].
    unfold related in Hrel. cbn [fst snd] in Hrel.
    destruct Hrel as [->|[->|[-> ->]]]; auto.
Qed.

Lemma isValid_iff_unoccupied_witness :
  (0 < 9)%nat ∧ (2 < 9)%nat
  ∧ (isValid dead_end 0 2 9 = true ↔
     ∀ r' c', (r' < 9)%nat → (c' < 9)%nat →
       r' = 0%nat ∨ c' = 2%nat
       ∨ ((r' / 3)%nat = (0 / 3)%nat ∧ (c' / 3)%nat = (2 / 3)%nat) →
       at_ dead_end r' c' ≠ Some (Num 9)).
Proof.
  assert (H0 : (0 < 9)%nat) by lia. assert (H2 : (2 < 9)%nat) by lia.
  split; [exact H0|]. split; [exact H2|].
  exact (isValid_iff_unoccupied dead_end 0 2 9 H0 H2).
Defined.

(** X2: on a consistent partial grid (every cell empty or a digit that
    no cell of its row, column or box repeats), a successful [solve]
    leaves a valid completed Sudoku that keeps every digit the grid
    held. *)
Theorem solve_success_valid (board sol : Grid) :
  proper board → solve board = (true, sol) →
  valid_sudoku sol
  ∧ ∀ r c v, v ≠ 0 → at_ board r c = Some (Num v) → at_ sol r c = Some (Num v).
Proof.
  intros Hproper Hsolve.
  assert (Hfuel : solve_fuel (S (empties board)) board = Some (true, sol)).
  { rewrite solve_enough_fuel by lia. by rewrite Hsolve. }
  split.
  - destruct (solve_fuel_sound _ _ _ (Nat.lt_succ_diag_r _) Hproper Hfuel).
    by apply complete_proper_valid.
  - intros r c v Hv Hat. rewrite (solve_fuel_keeps _ _ _ _ r c Hfuel); [done|].
    unfold holds. rewrite Hat. simpl. by apply Z.eqb_neq.
Qed.

Lemma solve_success_valid_witness :
  proper (initial easy) ∧ solve (initial easy) = (true, easy_completion)
  ∧ valid_sudoku easy_completion
  ∧ ∀ r c v, v ≠ 0 → at_ (initial easy) r c = Some (Num v)
      → at_ easy_completion r c = Some (Num v).
Proof.
  assert (Hp : proper (initial easy)) by (apply properb_proper; vm_compute; reflexivity).
  assert (Hs : solve (initial easy) = (true, easy_completion)) by (vm_compute; reflexivity).
  split; [exact Hp|]. split; [exact Hs|].
  exact (solve_success_valid (initial easy) easy_completion Hp Hs).
Defined.

(** X3: on a consistent partial grid, [solve] returns true exactly when
    the grid has a completion: a consistent grid without empty cells
    that agrees with it on every filled cell.  A failure therefore means
    that no completion exists. *)
Theorem solve_true_iff_completion (board : Grid) :
  proper board →
  ((solve board).1 = true ↔ ∃ full, proper full ∧ complete full ∧ extends board full).
Proof.
  intros Hproper. split.
  - destruct (solve board) as [ok sol] eqn:Hsolve. simpl. intros ->.
    assert (Hfuel : solve_fuel (S (empties board)) board = Some (true, sol)).
    { rewrite solve_enough_fuel by lia. by rewrite Hsolve. }
    destruct (solve_fuel_sound _ _ _ (Nat.lt_succ_diag_r _) Hproper Hfuel).
    exists sol. split; [done|]. split; [done|]. by eapply solve_extends.
  - intros (full & Hfull & Hcomplete & Hext).
    destruct (solve_fuel_complete (S (empties board)) board full) as [sol Hsol];
      try done; [lia|].
    by rewrite (solve_fuel_solve _ _ _ Hsol).
Qed.

Lemma solve_true_iff_completion_witness :
  proper dead_end
  ∧ ((solve dead_end).1 = true
     ↔ ∃ full, proper full ∧ complete full ∧ extends dead_end full).
Proof.
  assert (Hp : proper dead_end) by (apply properb_proper; vm_compute; reflexivity).
  split; [exact Hp|]. exact (solve_true_iff_completion dead_end Hp).
Defined.

(** X4: when some empty cell of the grid has no valid candidate, [solve]
    returns false at once and leaves the grid as it is: the scan picks a
    cell without candidates and the candidate loop tries nothing. *)
Theorem solve_dead_end (board : Grid) (r c : nat) :
  (r < 9)%nat → (c < 9)%nat → at_ board r c = Some (Num 0) →
  (∀ n, 1 ≤ n ≤ 9 → isValid board r c n = false) →
  findBestCell board ≠ None
  ∧ (∀ r0 c0, findBestCell board = Some (r0, c0) →
       ∀ n, 1 ≤ n ≤ 9 → isValid board r0 c0 n = false)
  ∧ solve board = (false, board).
Proof.
  intros Hr Hc Hat Hnone.
  assert (Hempty : empty_at board (r, c)) by (by apply holds_true).
  assert (Hzero : count_at board (r, c) = 0%nat).
  { unfold count_at, candidates. cbn [fst snd].
    destruct (filter _ digits) as [|n ns] eqn:Hf; [done|exfalso].
    assert (Hn : n ∈ filter (λ n, isValid board r c n = true) digits)
      by (rewrite Hf; by left).
    apply list_elem_of_filter in Hn as [Hvalid Hn%elem_of_digits].
    rewrite Hnone in Hvalid; done. }
  assert (Hsome : findBestCell board ≠ None).
  { rewrite findBestCell_None. intros Hall. by apply (Hall (r, c)). }
  assert (Hbest : ∀ r0 c0, findBestCell board = Some (r0, c0) →
            ∀ n, 1 ≤ n ≤ 9 → isValid board r0 c0 n = false).
  { intros r0 c0 Hfind n Hn. apply not_true_iff_false. intros Hvalid.
    pose proof (candidates_positive board r0 c0 n Hn Hvalid) as Hpos.
    apply findBestCell_Some in Hfind as (l1 & l2 & Hscan & _ & Hl1 & Hl2).
    assert (Hin : (r, c) ∈ scan) by (by apply elem_of_scan).
    rewrite Hscan in Hin. unfold count_at in *. cbn [fst snd] in *.
    apply elem_of_app in Hin as [Hin|Hin].
    - specialize (Hl1 _ Hin Hempty). cbn [fst snd] in Hl1. lia.
    - apply elem_of_cons in Hin as [[= <- <-]|Hin]; [lia|].
      specialize (Hl2 _ Hin Hempty). cbn [fst snd] in Hl2. lia. }
  split; [done|]. split; [done|].
  destruct (findBestCell board) as [[r0 c0]|] eqn:Hfind; [|done].
  destruct (solve_step board r0 c0 Hfind)
    as [[Hfail _]|(n & b' & Hn & Hvalid & _)]; [done|].
  rewrite (Hbest r0 c0 eq_refl n Hn) in Hvalid. done.
Qed.

Lemma solve_dead_end_witness :
  (0 < 9)%nat ∧ (8 < 9)%nat ∧ at_ dead_end 0 8 = Some (Num 0)
  ∧ (∀ n, 1 ≤ n ≤ 9 → isValid dead_end 0 8 n = false)
  ∧ solve dead_end = (false, dead_end).
Proof.
  assert (H0 : (0 < 9)%nat) by lia. assert (H8 : (8 < 9)%nat) by lia.
  assert (Hat : at_ dead_end 0 8 = Some (Num 0)) by reflexivity.
  assert (Hno : ∀ n, 1 ≤ n ≤ 9 → isValid dead_end 0 8 n = false).
  { intros n Hn. assert (n ∈ digits) as Hin by (by apply elem_of_digits).
    unfold digits in Hin. repeat (apply elem_of_cons in Hin as [->|Hin]; [by vm_compute|]).
    by apply elem_of_nil in Hin. }
  split; [exact H0|]. split; [exact H8|]. split; [exact Hat|]. split; [exact Hno|].
  exact (proj2 (proj2 (solve_dead_end dead_end 0 8 H0 H8 Hat Hno))).
Defined.

(** * Part V: further properties of the loader *)

Lemma cell_index_inj i j :
  (i / 9)%nat = (j / 9)%nat → (i mod 9)%nat = (j mod 9)%nat → i = j.
Proof.
  intros Hd Hm. rewrite (Nat.div_mod_eq i 9), (Nat.div_mod_eq j 9). by rewrite Hd, Hm.
Qed.

Lemma grid9_at_Some {A} (b : list (list A)) r c :
  grid9 b → (r < 9)%nat → (c < 9)%nat → is_Some (at_ b r c).
Proof.
  intros [Hlen Hrows] Hr Hc. unfold at_.
  destruct (lookup_lt_is_Some_2 b r) as [line Hline]; [lia|]. rewrite Hline.
  apply lookup_lt_is_Some_2. rewrite Forall_lookup in Hrows.
  rewrite (Hrows _ _ Hline). done.
Qed.

Section fill.
Context {A : Type} (skip : nat → bool) (val : nat → A).

Lemma fill_grid9 l b : grid9 b → grid9 (fold_left (write_cell skip val) l b).
Proof.
  revert b. induction l as [|a l IH]; intros b Hb; [done|]. simpl. apply IH.
  unfold write_cell. destruct (skip a); [done|by apply grid9_put].
Qed.

Lemma fill_other l b i :
  i ∉ l → at_ (fold_left (write_cell skip val) l b) (i / 9) (i mod 9) = at_ b (i / 9) (i mod 9).
Proof.
  revert b. induction l as [|a l IH]; intros b Hi; [done|].
  apply not_elem_of_cons in Hi as [Hne Hi]. cbn [fold_left]. rewrite IH by done.
  unfold write_cell. destruct (skip a); [done|]. apply at_put_ne.
  intros [= Hd Hm]. apply Hne. symmetry. by apply cell_index_inj.
Qed.

Lemma fill_written l b i :
  NoDup l → i ∈ l → (i < 81)%nat → grid9 b →
  at_ (fold_left (write_cell skip val) l b) (i / 9) (i mod 9)
  = if skip i then at_ b (i / 9) (i mod 9) else Some (val i).
Proof.
  revert b. induction l as [|a l IH]; intros b Hnd Hi Hlt Hb.
  { by apply elem_of_nil in Hi. }
  apply NoDup_cons in Hnd as [Ha Hnd]. cbn [fold_left].
  assert (Hb' : grid9 (write_cell skip val b a)).
  { unfold write_cell. destruct (skip a); [done|by apply grid9_put]. }
  apply elem_of_cons in Hi as [->|Hi].
  - rewrite fill_other by done. unfold write_cell. destruct (skip a); [done|].
    apply at_put_eq, grid9_at_Some; [done|..].
    + apply Nat.Div0.div_lt_upper_bound. lia.
    + apply Nat.mod_upper_bound. lia.
  - rewrite IH by done. destruct (skip i); [|done].
    unfold write_cell. destruct (skip a); [done|]. apply at_put_ne.
    intros [= Hd Hm]. apply Ha. by rewrite (cell_index_inj _ _ Hd Hm).
Qed.
End fill.

Lemma grid9_zeros : grid9 zeros.
Proof. apply (bool_decide_unpack _). vm_compute. exact I. Qed.

Lemma grid9_blank : grid9 blank.
Proof. apply (bool_decide_unpack _). vm_compute. exact I. Qed.

Lemma at_blank r c :
  (r < 9)%nat → (c < 9)%nat → at_ blank r c = Some (mkCell None false false).
Proof.
  intros Hr Hc. unfold at_, blank. rewrite lookup_replicate_2 by done.
  by apply lookup_replicate_2.
Qed.

Lemma cell_index r c :
  (c < 9)%nat → ((9 * r + c) / 9)%nat = r ∧ ((9 * r + c) mod 9)%nat = c.
Proof.
  intros Hc. split.
  - rewrite (Nat.mul_comm 9), Nat.div_add_l by lia. rewrite (Nat.div_small c) by lia. lia.
  - rewrite Nat.add_comm, (Nat.mul_comm 9), Nat.Div0.mod_add. by apply Nat.mod_small.
Qed.

Lemma fill_solution_at baseString r c :
  (r < 9)%nat → (c < 9)%nat →
  at_ (fill_solution baseString zeros) r c
  = Some (if is_dot (String.get (9 * r + c) baseString) then Num 0
          else parseInt (String.get (9 * r + c) baseString)).
Proof.
  intros Hr Hc. destruct (cell_index r c Hc) as [Hd Hm].
  pose proof (fill_written (λ _, false)
    (λ i, if is_dot (String.get i baseString) then Num 0
          else parseInt (String.get i baseString))
    (seq 0 81) zeros (9 * r + c)%nat (NoDup_seq 0 81)) as Hfill.
  rewrite Hd, Hm in Hfill. apply Hfill; [apply elem_of_seq; lia|lia|apply grid9_zeros].
Qed.

Lemma fill_puzzle_at baseString r c :
  (r < 9)%nat → (c < 9)%nat →
  at_ (fill_puzzle baseString blank) r c
  = Some (if is_dot (String.get (9 * r + c) baseString) then mkCell None false false
          else mkCell (Some (parseInt (String.get (9 * r + c) baseString))) true false).
Proof.
  intros Hr Hc. destruct (cell_index r c Hc) as [Hd Hm].
  pose proof (fill_written (λ i, is_dot (String.get i baseString))
    (λ i, mkCell (Some (parseInt (String.get i baseString))) true false)
    (seq 0 81) blank (9 * r + c)%nat (NoDup_seq 0 81)) as Hfill.
  rewrite Hd, Hm in Hfill.
  assert (Hin : (9 * r + c)%nat ∈ seq 0 81) by (apply elem_of_seq; lia).
  assert (Hlt : (9 * r + c < 81)%nat) by lia.
  etrans; [exact (Hfill Hin Hlt grid9_blank)|].
  destruct (is_dot _); [by apply at_blank|done].
Qed.

Lemma fill_solution_grid9 baseString : grid9 (fill_solution baseString zeros).
Proof.
  exact (fill_grid9 (λ _, false)
    (λ i, if is_dot (String.get i baseString) then Num 0
          else parseInt (String.get i baseString)) (seq 0 81) zeros grid9_zeros).
Qed.

Lemma fill_puzzle_grid9 baseString : grid9 (fill_puzzle baseString blank).
Proof.
  exact (fill_grid9 (λ i, is_dot (String.get i baseString))
    (λ i, mkCell (Some (parseInt (String.get i baseString))) true false)
    (seq 0 81) blank grid9_blank).
Qed.

(** X5: for every definition string, the two loops of the loader lay
    the symbols out row-major: the symbol at index [9 r + c] decides
    the cell of row [r] and column [c], a dot giving an empty cell (0 in
    the grid, a blank cell on the board) and any other symbol the number
    [parseInt] reads, as a given cell on the board; both arrays stay
    9x9. *)
Theorem definition_layout (baseString : string) (r c : nat) :
  (r < 9)%nat → (c < 9)%nat →
  let char := String.get (9 * r + c) baseString in
  at_ (fill_solution baseString zeros) r c
    = Some (if is_dot char then Num 0 else parseInt char)
  ∧ at_ (fill_puzzle baseString blank) r c
    = Some (if is_dot char then mkCell None false false
            else mkCell (Some (parseInt char)) true false)
  ∧ grid9 (fill_solution baseString zeros)
  ∧ grid9 (fill_puzzle baseString blank).
Proof.
  intros Hr Hc char. split; [by apply fill_solution_at|].
  split; [by apply fill_puzzle_at|].
  split; [apply fill_solution_grid9|apply fill_puzzle_grid9].
Qed.

Lemma definition_layout_witness :
  (0 < 9)%nat ∧ (2 < 9)%nat
  ∧ at_ (fill_solution (PUZZLES easy) zeros) 0 2 = Some (Num 3)
  ∧ at_ (fill_puzzle (PUZZLES easy) blank) 0 2 = Some (mkCell (Some (Num 3)) true false).
Proof.
  assert (H0 : (0 < 9)%nat) by lia. assert (H2 : (2 < 9)%nat) by lia.
  destruct (definition_layout (PUZZLES easy) 0 2 H0 H2) as (Hs & Hp & _).
  split; [exact H0|]. split; [exact H2|]. split; [exact Hs|exact Hp].
Defined.

Lemma loader_outcome (init : Grid) (puzzle : Board) (message : string) :
  proper init →
  match (let '(success, solutionBoard) := solve init in
         if negb success then Throw message
         else Return (puzzle, solutionBoard)) with
  | Return (p, sol) =>
      p = puzzle ∧ valid_sudoku sol
      ∧ ∀ r c v, v ≠ 0 → at_ init r c = Some (Num v) → at_ sol r c = Some (Num v)
  | Throw _ => ¬ ∃ full, proper full ∧ complete full ∧ extends init full
  end.
Proof.
  intros Hproper. destruct (solve init) as [[] sol] eqn:Hsolve; cbn [negb].
  - assert (Hfuel : solve_fuel (S (empties init)) init = Some (true, sol)).
    { rewrite solve_enough_fuel by lia. by rewrite Hsolve. }
    split; [done|]. split.
    + destruct (solve_fuel_sound _ _ _ (Nat.lt_succ_diag_r _) Hproper Hfuel).
      by apply complete_proper_valid.
    + intros r c v Hv Hat. rewrite (solve_fuel_keeps _ _ _ _ r c Hfuel); [done|].
      unfold holds. rewrite Hat. simpl. by apply Z.eqb_neq.
  - intros (full & Hfull & Hcomplete & Hext).
    destruct (solve_fuel_complete (S (empties init)) init full) as [b' Hb'];
      try done; [lia|].
    apply solve_fuel_solve in Hb'. congruence.
Qed.

(** X6: for every definition string whose grid is a consistent partial
    assignment, the loader either returns the board of the definition
    with a valid completed Sudoku in which every given cell of the board
    finds its own digit, or throws, and then the definition has no
    completion at all. *)
Theorem generatePuzzle_of_outcome (baseString : string) (difficulty : Difficulty) :
  proper (fill_solution baseString zeros) →
  match generatePuzzle_of baseString difficulty with
  | Return (puzzle, sol) =>
      puzzle = fill_puzzle baseString blank ∧ valid_sudoku sol
      ∧ ∀ r c cell v,
          at_ puzzle r c = Some cell → isGiven cell = true →
          value cell = Some (Num v) → v ≠ 0 → at_ sol r c = Some (Num v)
  | Throw _ =>
      ¬ ∃ full, proper full ∧ complete full
          ∧ extends (fill_solution baseString zeros) full
  end.
Proof.
  intros Hproper. unfold generatePuzzle_of. cbv zeta.
  pose proof (loader_outcome (fill_solution baseString zeros)
                (fill_puzzle baseString blank)
                ("Failed to solve " +:+ difficulty_name difficulty +:+ " puzzle")
                Hproper) as Hout.
  pose proof (fill_puzzle_grid9 baseString) as Hgrid.
  pose proof (fill_puzzle_at baseString) as Hpuzzle.
  pose proof (fill_solution_at baseString) as Hinit.
  revert Hout Hgrid Hpuzzle Hinit. clear Hproper.
  generalize (fill_solution baseString zeros) (fill_puzzle baseString blank).
  intros init puzzle Hout Hgrid Hpuzzle Hinit.
  destruct (solve init) as [[] sol]; cbn [negb] in *; [|exact Hout].
  destruct Hout as (_ & Hvalid & Hkeeps). split; [reflexivity|]. split; [exact Hvalid|].
  intros r c cell v Hat Hgiven Hvalue Hv.
  destruct (at_Some_inside _ _ _ _ Hgrid Hat) as [Hr Hc]. cbn [fst snd] in Hr, Hc.
  rewrite (Hpuzzle r c Hr Hc) in Hat. specialize (Hinit r c Hr Hc).
  destruct (is_dot (String.get (9 * r + c) baseString)).
  - apply (inj Some) in Hat. subst cell. discriminate Hgiven.
  - apply (inj Some) in Hat. subst cell. cbn [value] in Hvalue.
    apply (inj Some) in Hvalue. rewrite Hvalue in Hinit. by apply Hkeeps.
Qed.

Lemma generatePuzzle_of_outcome_witness :
  proper (fill_solution dead_end_definition zeros)
  ∧ match generatePuzzle_of dead_end_definition hard with
    | Return (puzzle, sol) =>
        puzzle = fill_puzzle dead_end_definition blank ∧ valid_sudoku sol
        ∧ ∀ r c cell v,
            at_ puzzle r c = Some cell → isGiven cell = true →
            value cell = Some (Num v) → v ≠ 0 → at_ sol r c = Some (Num v)
    | Throw _ =>
        ¬ ∃ full, proper full ∧ complete full
            ∧ extends (fill_solution dead_end_definition zeros) full
    end.
Proof.
  assert (Hp : proper (fill_solution dead_end_definition zeros))
    by (apply properb_proper; vm_compute; reflexivity).
  split; [exact Hp|]. exact (generatePuzzle_of_outcome dead_end_definition hard Hp).
Defined.

(** * Part VI: further properties of the controller *)

Lemma reachable_events evs s :
  reachable s → all_enabled s evs = true → reachable (fold_left step evs s).
Proof.
  revert s. induction evs as [|e evs IH]; intros s Hs Hall; [done|].
  cbn [all_enabled] in Hall. apply andb_true_iff in Hall as [He Hall].
  apply bool_decide_eq_true in He. cbn [fold_left]. apply IH; [|done].
  by apply reachable_step.
Qed.

Lemma firstEmpty_first (b : Board) i :
  Forall (λ line, length line = 9%nat) b → firstEmpty b = Some i →
  ∀ j cell, (j < i)%nat → at_ b (j / 9) (j mod 9) = Some cell →
    ¬ (value cell = None ∧ isGiven cell = false).
Proof.
  intros Hrows. unfold firstEmpty.
  destruct (list_find _ (concat b)) as [[k cell]|] eqn:Hfind; [|done].
  cbn -[Nat.div Nat.modulo]. intros [= ->].
  apply list_find_Some in Hfind as (_ & _ & Hbefore).
  intros j cell' Hj Hat. apply (Hbefore j); [|done]. by rewrite concat_lookup_rows.
Qed.

Lemma firstEmpty_bound (b : Board) i :
  grid9 b → firstEmpty b = Some i → (i < 81)%nat.
Proof.
  intros Hgrid Hfirst.
  destruct (firstEmpty_Some b i (proj2 Hgrid) Hfirst) as (cell & Hat & _).
  destruct (at_Some_inside _ _ _ _ Hgrid Hat) as [Hr Hc]. cbn [fst snd] in Hr, Hc.
  rewrite (Nat.div_mod_eq i 9). lia.
Qed.

Lemma firstEmpty_None (b : Board) r c cell :
  grid9 b → firstEmpty b = None → at_ b r c = Some cell →
  ¬ (value cell = None ∧ isGiven cell = false).
Proof.
  intros Hgrid. unfold firstEmpty.
  destruct (list_find _ (concat b)) as [[k x]|] eqn:Hfind; [done|]. intros _ Hat.
  apply list_find_None in Hfind. rewrite Forall_forall in Hfind. apply Hfind.
  apply list_elem_of_lookup. exists (9 * r + c)%nat.
  destruct (at_Some_inside _ _ _ _ Hgrid Hat) as [Hr Hc]. cbn [fst snd] in Hr, Hc.
  destruct (cell_index r c Hc) as [Hd Hm].
  by rewrite (concat_lookup_rows b _ (proj2 Hgrid)), Hd, Hm.
Qed.

(** What an input does to a session that satisfies the invariant:
    nothing, or one write on a cell that is not given. *)
Lemma handleNumberInput_effect num s :
  session_inv s →
  handleNumberInput num s = s
  ∨ ∃ b sol r c cell,
      status s = playing ∧ board s = Some b ∧ solution s = Some sol
      ∧ at_ b r c = Some cell ∧ isGiven cell = false
      ∧ (selectedCell s = Some (mkPosition r c)
         ∨ (selectedCell s = None ∧ value cell = None ∧ is_Some num))
      ∧ handleNumberInput num s
        = commit (put b r c (written sol r c num)) (Some (mkPosition r c))
                 (counted cell (written sol r c num) (errors s)) s.
Proof.
  intros Hinv. unfold handleNumberInput.
  destruct (status s) eqn:Hst; [by left| |by left].
  destruct (board s) as [b|] eqn:Hb; [|by left].
  unfold session_inv in Hinv. rewrite Hb in Hinv.
  destruct (solution s) as [sol|] eqn:Hsol; [|done].
  destruct Hinv as [Hgrid Hall]. rewrite (fresh_json_copy sol b Hall).
  destruct (selectedCell s) as [[row col]|] eqn:Hsel.
  - destruct (at_ b row col) as [cell|] eqn:Hat; [|by left].
    destruct (isGiven cell) eqn:Hg; [by left|right].
    exists b, sol, row, col, cell. split_and!; try done; [by left|].
    unfold written, counted. destruct num as [n|]; cbn [isInvalid];
      rewrite ?differs_holds; [done|]. reflexivity.
  - destruct (firstEmpty b) as [i|] eqn:Hfirst; [|by left].
    destruct num as [n|]; [|by left].
    destruct (firstEmpty_Some b i (proj2 Hgrid) Hfirst) as (cell & Hat & Hv & Hg).
    rewrite Hat. right. exists b, sol, (i / 9)%nat, (i mod 9)%nat, cell.
    split_and!; try done; [right; by eauto|].
    specialize (Hall _ _ _ Hat). unfold cell_fresh in Hall. rewrite Hv in Hall.
    unfold written, counted. cbn [isInvalid]. rewrite differs_holds, Hg, Hall.
    by rewrite andb_true_r.
Qed.

(** What a key does: nothing, a move of the selection that stays on the
    board, or an input. *)
Lemma handleKeyDown_effect key s :
  handleKeyDown key s = s
  ∨ (∃ r c r' c', status s = playing ∧ selectedCell s = Some (mkPosition r c)
       ∧ handleKeyDown key s = setSelectedCell (Some (mkPosition r' c')) s
       ∧ ((r < 9)%nat → (r' < 9)%nat) ∧ ((c < 9)%nat → (c' < 9)%nat))
  ∨ (∃ num, handleKeyDown key s = handleNumberInput num s).
Proof.
  unfold handleKeyDown.
  destruct (status s) eqn:Hst; [by left| |by left].
  destruct (selectedCell s) as [[r c]|] eqn:Hsel; [|by left].
  destruct key; try (by left); try (right; right; by eexists);
    try (right; left; eexists r, c, _, _; split_and!; [done|done|done|lia|lia]).
  destruct (parseInt (Some ch)) as [n|]; [|by left].
  destruct (n =? 0); [by left|]. right. right. by eexists.
Qed.

Section filter_growth.
Context {A : Type} `{!EqDecision A} (P Q : A → Prop).
Context `{!∀ x, Decision (P x)} `{!∀ x, Decision (Q x)}.

Lemma length_filter_one_more (l : list A) (p : A) :
  NoDup l → (∀ x, x ∈ l → x ≠ p → Q x → P x) →
  (length (filter Q l) ≤ S (length (filter P l)))%nat.
Proof.
  induction l as [|x l IH]; intros Hnd Hsub; [simpl; lia|].
  apply NoDup_cons in Hnd as [Hx Hnd]. rewrite !filter_cons.
  destruct (decide (x = p)) as [->|Hne].
  - assert ((length (filter Q l) ≤ length (filter P l))%nat).
    { apply length_filter_sub. intros y Hy. apply Hsub; [by right|].
      intros ->. done. }
    destruct (decide (Q p)), (decide (P p)); simpl; lia.
  - assert ((length (filter Q l) ≤ S (length (filter P l)))%nat).
    { apply IH; [done|]. intros y Hy. apply Hsub. by right. }
    destruct (decide (Q x)) as [Hq|Hq], (decide (P x)) as [Hp|Hp]; simpl; try lia.
    exfalso. apply Hp, Hsub; [by left|done|done].
Qed.
End filter_growth.

Lemma invalid_at_put_eq (b : Board) r c x :
  is_Some (at_ b r c) → invalid_at (put b r c x) (r, c) = isInvalid x.
Proof. intros H. unfold invalid_at. cbn [fst snd]. by rewrite at_put_eq. Qed.

Lemma invalid_at_put_ne (b : Board) r c x q :
  (r, c) ≠ q → invalid_at (put b r c x) q = invalid_at b q.
Proof.
  intros Hne. destruct q as [r' c']. unfold invalid_at. cbn [fst snd].
  by rewrite at_put_ne.
Qed.

Lemma invalid_count_put (b : Board) r c old x :
  at_ b r c = Some old →
  (invalid_count (put b r c x) ≤ counted old x (invalid_count b))%nat.
Proof.
  intros Hat. assert (Hsome : is_Some (at_ b r c)) by (by rewrite Hat).
  assert (Hold : invalid_at b (r, c) = isInvalid old).
  { unfold invalid_at. cbn [fst snd]. by rewrite Hat. }
  unfold counted, invalid_count.
  destruct (isInvalid x) eqn:Hx; cbn [andb]; [destruct (isInvalid old) eqn:Ho; cbn [negb]|].
  - apply length_filter_sub. intros q _.
    destruct (decide ((r, c) = q)) as [<-|Hne]; [by rewrite Hold|].
    by rewrite invalid_at_put_ne.
  - apply (length_filter_one_more _ _ scan (r, c) NoDup_scan). intros q _ Hne.
    by rewrite invalid_at_put_ne.
  - apply length_filter_sub. intros q _.
    destruct (decide ((r, c) = q)) as [<-|Hne].
    + rewrite invalid_at_put_eq by done. congruence.
    + by rewrite invalid_at_put_ne.
Qed.

Lemma counted_bounds old x errs :
  (errs ≤ counted old x errs ≤ S errs)%nat.
Proof. unfold counted. destruct (_ && _); lia. Qed.

Lemma counted_mono old x m n : (m ≤ n)%nat → (counted old x m ≤ counted old x n)%nat.
Proof. unfold counted. destruct (_ && _); lia. Qed.

Lemma invalid_count_loaded baseString : invalid_count (fill_puzzle baseString blank) = 0%nat.
Proof.
  unfold invalid_count. apply Nat.le_0_r.
  etrans; [apply (length_filter_sub (λ _, False))|].
  - intros [r c] Hin%elem_of_scan. destruct Hin as [Hr Hc]. cbn [fst snd] in Hr, Hc.
    unfold invalid_at. cbn [fst snd]. rewrite (fill_puzzle_at baseString r c Hr Hc).
    by destruct (is_dot _).
  - induction scan as [|q l IH]; [done|]. rewrite filter_cons. by destruct (decide False).
Qed.

Lemma startGame_ok diff s : session_ok (startGame diff s).
Proof.
  destruct (startGame_playing diff s) as (sol & Hstart & Hsol).
  destruct (solve_initial diff) as (sol' & Hsol' & Hvalid & _).
  assert (sol' = sol) as -> by (rewrite Hsol in Hsol'; by injection Hsol').
  clear Hsol Hsol'. pose proof (startGame_inv diff s) as Hinv.
  rewrite Hstart in *. clear Hstart.
  split; [exact Hinv|]. cbn [status board solution selectedCell errors].
  split; [intros _; by eexists|]. split; [intros r c [=]|].
  split; [by intros ? [= <-]|]. split; [intros ? ? [=]|].
  intros b [= <-]. by rewrite invalid_count_loaded.
Qed.

Lemma handleNumberInput_ok num s : session_ok s → session_ok (handleNumberInput num s).
Proof.
  intros Hok. pose proof Hok as (Hinv & Hboard & Hsel & Hvalid & Hwon & Hcount).
  pose proof (handleNumberInput_inv num s Hinv) as Hinv'.
  destruct (handleNumberInput_effect num s Hinv)
    as [->|(b & sol & r & c & cell & Hst & Hb & Hsol & Hat & Hg & _ & Heq)]; [done|].
  rewrite Heq in *. clear Heq. split; [exact Hinv'|].
  unfold session_inv in Hinv. rewrite Hb, Hsol in Hinv. destruct Hinv as [Hgrid _].
  destruct (at_Some_inside _ _ _ _ Hgrid Hat) as [Hr Hc]. cbn [fst snd] in Hr, Hc.
  unfold commit. rewrite Hsol. cbn [status board solution selectedCell errors].
  split; [intros _; by eexists|].
  split; [intros ? ? [= <- <-]; split_and!; [done|done|by eexists]|].
  split; [intros ? [= <-]; by apply Hvalid|].
  split.
  - intros ? ? Hsolved [= <-] [= <-].
    destruct (checkWin sol _); [done|]. rewrite Hst in Hsolved. done.
  - intros ? [= <-]. etrans; [by apply (invalid_count_put b r c cell)|].
    apply counted_mono. by apply Hcount.
Qed.

Lemma handleKeyDown_ok key s : session_ok s → session_ok (handleKeyDown key s).
Proof.
  intros Hok.
  destruct (handleKeyDown_effect key s)
    as [->|[(r & c & r' & c' & Hst & Hsel & -> & Hr & Hc)|[num ->]]];
    [done| |by apply handleNumberInput_ok].
  destruct Hok as (Hinv & Hboard & Hselected & Hvalid & Hwon & Hcount).
  destruct (Hselected r c Hsel) as (Hr9 & Hc9 & Hsome).
  split; [exact Hinv|]. cbn [setSelectedCell status board solution selectedCell errors].
  split; [done|]. split; [intros ? ? [= <- <-]; auto|]. done.
Qed.

Lemma step_ok s e : session_ok s → enabled s e → session_ok (step s e).
Proof.
  intros Hok He. destruct e; cbn [step].
  - apply startGame_ok.
  - destruct Hok as (Hinv & Hboard & Hsel & Hvalid & Hwon & Hcount).
    split; [exact Hinv|]. cbn [setStatus status board solution selectedCell errors].
    split; [done|]. split; [done|]. split; [done|]. split; [intros ? ? [=]|done].
  - destruct Hok as (Hinv & Hboard & Hsel & Hvalid & Hwon & Hcount).
    split; [exact Hinv|]. done.
  - destruct Hok as (Hinv & Hboard & Hsel & Hvalid & Hwon & Hcount).
    destruct He as (_ & Hsome & Hr & Hc).
    split; [exact Hinv|]. cbn [setSelectedCell status board solution selectedCell errors].
    split; [done|]. split; [intros ? ? [= <- <-]; auto|]. done.
  - by apply handleNumberInput_ok.
  - destruct (selectedCell s); [by apply handleNumberInput_ok|done].
  - by apply handleKeyDown_ok.
  - destruct Hok as (Hinv & Hboard & Hsel & Hvalid & Hwon & Hcount).
    split; [exact Hinv|]. done.
Qed.

Lemma initial_ok : session_ok initial_session.
Proof.
  split; [done|]. unfold initial_session.
  cbn [status board solution selectedCell errors].
  split; [done|]. split; [done|]. split; [done|]. done.
Qed.

Lemma reachable_ok s : reachable s → session_ok s.
Proof. induction 1; [apply initial_ok|by apply step_ok]. Qed.

Lemma started_reachable : reachable started.
Proof.
  assert (Heq : fold_left step [SelectDifficulty easy; ClickStart] initial_session = started)
    by (vm_compute; reflexivity).
  rewrite <- Heq. apply reachable_events; [apply reachable_initial|].
  vm_compute. reflexivity.
Qed.

Lemma won_reachable : reachable won_session.
Proof.
  apply reachable_events; [apply reachable_initial|]. vm_compute. reflexivity.
Qed.

(** X7: in every reachable session the board, once there is one, is
    9x9; it is there whenever the status is not [menu]; and a selected
    position is a cell of it, so that the handlers never read outside
    the board. *)
Theorem selection_on_board (s : Session) :
  reachable s →
  (status s ≠ menu → is_Some (board s))
  ∧ (∀ b, board s = Some b → grid9 b)
  ∧ (∀ r c, selectedCell s = Some (mkPosition r c) →
       (r < 9)%nat ∧ (c < 9)%nat
       ∧ ∃ b cell, board s = Some b ∧ at_ b r c = Some cell).
Proof.
  intros (Hinv & Hboard & Hsel & _)%reachable_ok.
  assert (Hgrid : ∀ b, board s = Some b → grid9 b).
  { intros b Hb. unfold session_inv in Hinv. rewrite Hb in Hinv.
    destruct (solution s); [by destruct Hinv|done]. }
  split; [done|]. split; [done|]. intros r c Hrc.
  destruct (Hsel r c Hrc) as (Hr & Hc & [b Hb]). split; [done|]. split; [done|].
  destruct (grid9_at_Some b r c (Hgrid b Hb) Hr Hc) as [cell Hcell]. eauto.
Qed.

Lemma selection_on_board_witness :
  reachable demo_session
  ∧ (status demo_session ≠ menu → is_Some (board demo_session))
  ∧ (∀ b, board demo_session = Some b → grid9 b)
  ∧ (∀ r c, selectedCell demo_session = Some (mkPosition r c) →
       (r < 9)%nat ∧ (c < 9)%nat
       ∧ ∃ b cell, board demo_session = Some b ∧ at_ b r c = Some cell).
Proof.
  split; [exact demo_reachable|]. exact (selection_on_board demo_session demo_reachable).
Defined.

(** X8: in every reachable session the number of cells marked invalid
    is at most the error count: every invalid mark on the board was
    counted when it appeared. *)
Theorem invalid_cells_counted (s : Session) (b : Board) :
  reachable s → board s = Some b → (invalid_count b ≤ errors s)%nat.
Proof.
  intros (_ & _ & _ & _ & _ & Hcount)%reachable_ok Hb. by apply Hcount.
Qed.

Lemma invalid_cells_counted_witness :
  reachable demo_session ∧ board demo_session = Some demo_board
  ∧ (invalid_count demo_board ≤ errors demo_session)%nat.
Proof.
  assert (Hb : board demo_session = Some demo_board) by (vm_compute; reflexivity).
  split; [exact demo_reachable|]. split; [exact Hb|].
  exact (invalid_cells_counted demo_session demo_board demo_reachable Hb).
Defined.

(** X9: in every reachable session with status [solved], every cell of
    the board holds the digit of the solution, the solution is a valid
    completed Sudoku, and no cell is marked invalid. *)
Theorem solved_board_is_solution (s : Session) :
  reachable s → status s = solved →
  ∃ b sol, board s = Some b ∧ solution s = Some sol
    ∧ all_match sol b ∧ valid_sudoku sol
    ∧ ∀ r c cell, at_ b r c = Some cell → isInvalid cell = false.
Proof.
  intros Hreach Hsolved. pose proof (reachable_ok s Hreach)
    as (Hinv & Hboard & _ & Hvalid & Hwon & _).
  destruct (Hboard ltac:(by rewrite Hsolved)) as [b Hb].
  pose proof (inv_never_stale s Hinv) as [Hboth Hstale].
  destruct (proj1 Hboth ltac:(by eexists)) as [sol Hsol].
  exists b, sol. split; [done|]. split; [done|].
  assert (Hall : all_match sol b) by (by apply checkWin_all_match, Hwon).
  split; [done|]. split; [by apply Hvalid|].
  intros r c cell Hat. apply not_true_iff_false. intros Hbad.
  destruct (Hstale b sol Hb Hsol r c cell Hat) as (Hiff & _).
  apply Hiff in Hbad as (v & Hv & Hwrong).
  unfold session_inv in Hinv. rewrite Hb, Hsol in Hinv. destruct Hinv as [Hgrid _].
  destruct (at_Some_inside _ _ _ _ Hgrid Hat) as [Hr Hc]. cbn [fst snd] in Hr, Hc.
  destruct (Hall r c Hr Hc) as (cell' & w & Hat' & Hw & Hsolw).
  assert (cell' = cell) as -> by congruence.
  assert (w = v) as -> by congruence.
  apply holds_true in Hsolw. congruence.
Qed.

Lemma solved_board_is_solution_witness :
  reachable won_session ∧ status won_session = solved
  ∧ ∃ b sol, board won_session = Some b ∧ solution won_session = Some sol
      ∧ all_match sol b ∧ valid_sudoku sol
      ∧ ∀ r c cell, at_ b r c = Some cell → isInvalid cell = false.
Proof.
  assert (Hst : status won_session = solved) by (vm_compute; reflexivity).
  split; [exact won_reachable|]. split; [exact Hst|].
  exact (solved_board_is_solution won_session won_reachable Hst).
Defined.

(** X10: in a reachable session no event but a new game changes a given
    cell: after the event the board still holds that cell, with the same
    value and flags, at the same place. *)
Theorem given_cells_never_change (s : Session) (e : Event) (b : Board)
    (r c : nat) (cell : Cell) :
  reachable s → e ≠ ClickStart →
  board s = Some b → at_ b r c = Some cell → isGiven cell = true →
  ∃ b', board (step s e) = Some b' ∧ at_ b' r c = Some cell.
Proof.
  intros Hreach Hne Hb Hat Hg. pose proof (reachable_inv s Hreach) as Hinv.
  assert (Hinput : ∀ num,
    ∃ b', board (handleNumberInput num s) = Some b' ∧ at_ b' r c = Some cell).
  { intros num. destruct (handleNumberInput_effect num s Hinv)
      as [->|(b0 & sol & r0 & c0 & cell0 & _ & Hb0 & _ & Hat0 & Hg0 & _ & ->)];
      [by eauto|].
    assert (b0 = b) as -> by congruence. eexists. split; [reflexivity|].
    rewrite at_put_ne; [done|]. intros [= -> ->]. congruence. }
  destruct e; [by destruct Hne|..]; cbn [step]; try (by eauto).
  - destruct (selectedCell s); [apply Hinput|by eauto].
  - destruct (handleKeyDown_effect key s)
      as [->|[(? & ? & ? & ? & _ & _ & -> & _)|[num ->]]]; [by eauto|by eauto|apply Hinput].
Qed.

Lemma given_cells_never_change_witness :
  reachable demo_session ∧ ClickPad 7 ≠ ClickStart
  ∧ board demo_session = Some demo_board
  ∧ at_ demo_board 0 2 = Some (mkCell (Some (Num 3)) true false)
  ∧ isGiven (mkCell (Some (Num 3)) true false) = true
  ∧ ∃ b', board (step demo_session (ClickPad 7)) = Some b'
      ∧ at_ b' 0 2 = Some (mkCell (Some (Num 3)) true false).
Proof.
  assert (Hne : ClickPad 7 ≠ ClickStart) by discriminate.
  assert (Hb : board demo_session = Some demo_board) by (vm_compute; reflexivity).
  assert (Hat : at_ demo_board 0 2 = Some (mkCell (Some (Num 3)) true false))
    by (vm_compute; reflexivity).
  split; [exact demo_reachable|]. split; [exact Hne|]. split; [exact Hb|].
  split; [exact Hat|]. split; [reflexivity|].
  exact (given_cells_never_change demo_session (ClickPad 7) demo_board 0 2 _
           demo_reachable Hne Hb Hat eq_refl).
Defined.

Lemma handleNumberInput_counts num s :
  handleNumberInput num s = s
  ∨ status s = playing
    ∧ ∃ nb sel errs, handleNumberInput num s = commit nb sel errs s
        ∧ (errors s ≤ errs ≤ S (errors s))%nat.
Proof.
  unfold handleNumberInput. destruct (status s) eqn:Hst; [by left| |by left].
  repeat case_match; try (by left);
    right; (split; [reflexivity|]); eexists _, _, _; (split; [reflexivity|lia]).
Qed.

Lemma handleKeyDown_counts key s :
  handleKeyDown key s = s
  ∨ (∃ p, handleKeyDown key s = setSelectedCell p s)
  ∨ status s = playing
    ∧ ∃ nb sel errs, handleKeyDown key s = commit nb sel errs s
        ∧ (errors s ≤ errs ≤ S (errors s))%nat.
Proof.
  destruct (handleKeyDown_effect key s)
    as [->|[(? & ? & ? & ? & _ & _ & -> & _)|[num ->]]]; [by left|by eauto|].
  destruct (handleNumberInput_counts num s) as [->|?]; [by left|by right; right].
Qed.

(** X11: a new game sets the error count and the timer to 0; any other
    event leaves the error count as it is or adds one to it, and leaves
    the timer as it is unless it is the tick, which adds one; none of
    them touches the solution. *)
Theorem counters_step (s : Session) (e : Event) :
  (e = ClickStart → errors (step s e) = 0%nat ∧ timer (step s e) = 0%nat)
  ∧ (e ≠ ClickStart →
       (errors s ≤ errors (step s e) ≤ S (errors s))%nat
       ∧ timer (step s e) = (if bool_decide (e = Tick) then S (timer s) else timer s)
       ∧ solution (step s e) = solution s).
Proof.
  split.
  - intros ->. cbn [step].
    destruct (startGame_playing (difficulty s) s) as (sol & -> & _). done.
  - intros Hne.
    assert (Hinput : ∀ num,
      (errors s ≤ errors (handleNumberInput num s) ≤ S (errors s))%nat
      ∧ timer (handleNumberInput num s) = timer s
      ∧ solution (handleNumberInput num s) = solution s).
    { intros num. destruct (handleNumberInput_counts num s)
        as [->|(_ & nb & sel & errs & -> & Herrs)]; [split; [lia|done]|].
      unfold commit. cbn [errors timer solution]. done. }
    destruct e; [done|..]; cbn [step];
      rewrite ?bool_decide_eq_false_2 by discriminate;
      try (cbn [setStatus setDifficulty setSelectedCell errors timer solution];
           split; [lia|done]).
    + apply Hinput.
    + destruct (selectedCell s); [apply Hinput|split; [lia|done]].
    + destruct (handleKeyDown_counts key s)
        as [->|[[p ->]|(_ & nb & sel & errs & -> & Herrs)]].
      * split; [lia|done].
      * cbn [setSelectedCell errors timer solution]. split; [lia|done].
      * unfold commit. cbn [errors timer solution]. done.
    + rewrite bool_decide_eq_true_2 by done.
      cbn [setTimer errors timer solution]. split; [lia|done].
Qed.

Lemma setSelectedCell_same s : setSelectedCell (selectedCell s) s = s.
Proof. by destruct s. Qed.

(** X12: while playing with a cell selected, an arrow key changes
    nothing but the selection, moves it by one cell in its direction,
    and leaves the session as it is at the edge of the board. *)
Theorem arrow_keys_clamp (s : Session) (r c : nat) :
  status s = playing → selectedCell s = Some (mkPosition r c) →
  (r < 9)%nat → (c < 9)%nat →
  handleKeyDown ArrowUp s
    = (if bool_decide (r = 0%nat) then s
       else setSelectedCell (Some (mkPosition (r - 1) c)) s)
  ∧ handleKeyDown ArrowDown s
    = (if bool_decide (r = 8%nat) then s
       else setSelectedCell (Some (mkPosition (r + 1) c)) s)
  ∧ handleKeyDown ArrowLeft s
    = (if bool_decide (c = 0%nat) then s
       else setSelectedCell (Some (mkPosition r (c - 1))) s)
  ∧ handleKeyDown ArrowRight s
    = (if bool_decide (c = 8%nat) then s
       else setSelectedCell (Some (mkPosition r (c + 1))) s).
Proof.
  intros Hst Hsel Hr Hc. unfold handleKeyDown. rewrite Hst, Hsel.
  split_and!; case_bool_decide as Hedge;
    try (etrans; [|apply setSelectedCell_same]; rewrite Hsel);
    do 3 f_equal; lia.
Qed.

Lemma arrow_keys_clamp_witness :
  status played = playing ∧ selectedCell played = Some (mkPosition 0 0)
  ∧ (0 < 9)%nat
  ∧ handleKeyDown ArrowUp played = played
  ∧ handleKeyDown ArrowDown played = setSelectedCell (Some (mkPosition 1 0)) played.
Proof.
  assert (H0 : (0 < 9)%nat) by lia.
  destruct (arrow_keys_clamp played 0 0 eq_refl eq_refl H0 H0) as (Hup & Hdown & _).
  split; [reflexivity|]. split; [reflexivity|]. split; [exact H0|].
  split; [exact Hup|exact Hdown].
Defined.

(** X13: in a reachable session in play with nothing selected, a digit
    of the number pad goes to the first cell in row-major order that is
    empty and not given: that cell becomes the selection, holds the
    digit and is marked invalid exactly when the digit is not the
    solution's, in which case one error is counted; with no such cell
    the session stays as it is, as it does for an erase. *)
Theorem pad_selects_first_empty (s : Session) (b : Board) (sol : Grid) (n : Z) :
  reachable s → status s = playing → selectedCell s = None →
  board s = Some b → solution s = Some sol →
  handleNumberInput None s = s
  ∧ (((∀ r c cell, at_ b r c = Some cell → ¬ (value cell = None ∧ isGiven cell = false))
      ∧ handleNumberInput (Some n) s = s)
     ∨ ∃ r c,
         (r < 9)%nat ∧ (c < 9)%nat
         ∧ at_ b r c = Some (mkCell None false false)
         ∧ (∀ r' c' cell, (c' < 9)%nat → (9 * r' + c' < 9 * r + c)%nat →
              at_ b r' c' = Some cell → ¬ (value cell = None ∧ isGiven cell = false))
         ∧ handleNumberInput (Some n) s
           = commit (put b r c (mkCell (Some (Num n)) false (negb (holds sol r c n))))
                    (Some (mkPosition r c))
                    (if holds sol r c n then errors s else S (errors s)) s).
Proof.
  intros Hreach Hst Hsel Hb Hsol. pose proof (reachable_inv s Hreach) as Hinv.
  unfold session_inv in Hinv. rewrite Hb, Hsol in Hinv. destruct Hinv as [Hgrid Hall].
  unfold handleNumberInput. rewrite Hst, Hb, Hsel, (fresh_json_copy sol b Hall).
  split; [by destruct (firstEmpty b)|].
  destruct (firstEmpty b) as [i|] eqn:Hfirst.
  - right. destruct (firstEmpty_Some b i (proj2 Hgrid) Hfirst) as (cell & Hat & Hv & Hg).
    destruct (at_Some_inside _ _ _ _ Hgrid Hat) as [Hr Hc]. cbn [fst snd] in Hr, Hc.
    pose proof (Hall _ _ _ Hat) as Hfresh. unfold cell_fresh in Hfresh.
    rewrite Hv in Hfresh.
    assert (cell = mkCell None false false) as ->.
    { destruct cell as [v g i0]. cbn in Hv, Hg, Hfresh. by subst. }
    exists (i / 9)%nat, (i mod 9)%nat. split; [done|]. split; [done|]. split; [done|].
    split.
    + intros r' c' cell' Hc' Hlt Hat'. destruct (cell_index r' c' Hc') as [Hd Hm].
      apply (firstEmpty_first b i (proj2 Hgrid) Hfirst (9 * r' + c')%nat).
      * rewrite (Nat.div_mod_eq i 9). lia.
      * by rewrite Hd, Hm.
    + rewrite Hat. cbn [isGiven]. rewrite Hsol, differs_holds.
      by destruct (holds sol _ _ n).
  - left. split; [|done]. intros r c cell Hat. by apply (firstEmpty_None b r c).
Qed.

Lemma pad_selects_first_empty_witness :
  reachable started ∧ status started = playing ∧ selectedCell started = None
  ∧ board started = Some (fill_puzzle (PUZZLES easy) blank)
  ∧ solution started = Some easy_completion
  ∧ handleNumberInput None started = started
  ∧ selectedCell (handleNumberInput (Some 4) started) = Some (mkPosition 0 0).
Proof.
  destruct (pad_selects_first_empty started (fill_puzzle (PUZZLES easy) blank)
              easy_completion 4 started_reachable eq_refl eq_refl eq_refl eq_refl)
    as (Herase & _).
  split; [exact started_reachable|]. split; [reflexivity|]. split; [reflexivity|].
  split; [reflexivity|]. split; [reflexivity|]. split; [exact Herase|].
  vm_compute. reflexivity.
Defined.

Lemma parseInt_digit d :
  1 ≤ d ≤ 9 → parseInt (Some (ascii_of_nat (48 + Z.to_nat d))) = Num d.
Proof.
  intros Hd. assert (Hin : d ∈ digits) by (by apply elem_of_digits).
  unfold digits in Hin.
  repeat (apply elem_of_cons in Hin as [->|Hin]; [reflexivity|]).
  by apply elem_of_nil in Hin.
Qed.

(** X14: while playing with a cell selected, the key of a digit 1..9
    does what the button of that digit on the number pad does, and
    Backspace and Delete do what the Erase button does; a key that types
    anything but a digit 1..9 changes nothing; and with nothing selected
    no key changes anything. *)
Theorem keyboard_as_pad (s : Session) :
  (status s = playing → is_Some (selectedCell s) →
     (∀ d, 1 ≤ d ≤ 9 → handleKeyDown (digit_key d) s = step s (ClickPad d))
     ∧ handleKeyDown Backspace s = step s ClickErase
     ∧ handleKeyDown Delete s = step s ClickErase)
  ∧ (∀ ch, ¬ (49 ≤ nat_of_ascii ch ≤ 57)%nat → handleKeyDown (Typed ch) s = s)
  ∧ handleKeyDown OtherKey s = s
  ∧ (selectedCell s = None ∨ status s ≠ playing → ∀ key, handleKeyDown key s = s).
Proof.
  split_and!.
  - intros Hst [[r c] Hsel]. unfold handleKeyDown, digit_key. cbn [step].
    rewrite Hst, Hsel. split_and!; [|done..].
    intros d Hd. rewrite parseInt_digit by done.
    by rewrite (proj2 (Z.eqb_neq d 0)) by lia.
  - intros ch Hch. unfold handleKeyDown.
    destruct (status s); try done. destruct (selectedCell s) as [[r c]|]; [|done].
    unfold parseInt.
    destruct ((48 <=? nat_of_ascii ch)%nat && (nat_of_ascii ch <=? 57)%nat) eqn:Hdigit;
      [|done].
    apply andb_true_iff in Hdigit as [H48%Nat.leb_le H57%Nat.leb_le].
    by rewrite (proj2 (Z.eqb_eq (Z.of_nat (nat_of_ascii ch) - 48) 0)) by lia.
  - unfold handleKeyDown. destruct (status s); try done.
    by destruct (selectedCell s) as [[r c]|].
  - intros Hno key. unfold handleKeyDown. destruct Hno as [->|Hst].
    + by destruct (status s).
    + by destruct (status s).
Qed.

(** X15: a new game does not depend on the session it starts from: for
    each difficulty it yields the same session, in play, with the board
    of that puzzle, no cell marked invalid, nothing selected, and the
    error count and the timer at 0. *)
Theorem new_game_forgets (diff : Difficulty) (s1 s2 : Session) :
  startGame diff s1 = startGame diff s2
  ∧ status (startGame diff s1) = playing
  ∧ difficulty (startGame diff s1) = diff
  ∧ board (startGame diff s1) = Some (fill_puzzle (PUZZLES diff) blank)
  ∧ invalid_count (fill_puzzle (PUZZLES diff) blank) = 0%nat
  ∧ selectedCell (startGame diff s1) = None
  ∧ errors (startGame diff s1) = 0%nat
  ∧ timer (startGame diff s1) = 0%nat.
Proof.
  destruct (startGame_playing diff s1) as (sol1 & -> & Hsol1).
  destruct (startGame_playing diff s2) as (sol2 & -> & Hsol2).
  assert (sol2 = sol1) as -> by (rewrite Hsol1 in Hsol2; by injection Hsol2).
  clear Hsol1 Hsol2. cbn [status difficulty board selectedCell errors timer].
  split_and!; try reflexivity. apply invalid_count_loaded.
Qed.

Lemma counted_same x errs : counted x x errs = errs.
Proof. unfold counted. by destruct (isInvalid x). Qed.

Lemma commit_playing_same nb sel errs s sol :
  status s = playing → solution s = Some sol →
  status (commit nb sel errs s) = playing →
  commit nb sel errs (commit nb sel errs s) = commit nb sel errs s.
Proof.
  intros Hst Hsol. unfold commit. cbn [status solution difficulty timer].
  rewrite !Hsol. by destruct (checkWin sol nb).
Qed.

(** X16: in a reachable session an input given twice does what it does
    given once: the second digit or erase finds the cell as the first
    left it and counts no further error. *)
Theorem input_twice (s : Session) (num : option Z) :
  reachable s →
  handleNumberInput num (handleNumberInput num s) = handleNumberInput num s.
Proof.
  intros Hreach. pose proof (reachable_inv s Hreach) as Hinv.
  pose proof (handleNumberInput_inv num s Hinv) as Hinv1.
  destruct (handleNumberInput_effect num s Hinv)
    as [Hsame|(b & sol & r & c & cell & Hst & Hb & Hsol & Hat & Hg & _ & Heq)].
  { by rewrite !Hsame. }
  rewrite Heq in *. set (x := written sol r c num) in *.
  set (errs := counted cell x (errors s)) in *.
  set (s1 := commit (put b r c x) (Some (mkPosition r c)) errs s) in *.
  assert (Hb1 : board s1 = Some (put b r c x)) by reflexivity.
  assert (Hsol1 : solution s1 = Some sol) by exact Hsol.
  assert (Hsel1 : selectedCell s1 = Some (mkPosition r c)) by reflexivity.
  assert (Herr1 : errors s1 = errs) by reflexivity.
  assert (Hx : at_ (put b r c x) r c = Some x) by (apply at_put_eq; by rewrite Hat).
  destruct (handleNumberInput_effect num s1 Hinv1)
    as [Hsame|(b1 & sol1 & r1 & c1 & cell1 & Hst1 & Hb1' & Hsol1' & Hat1 & _ & Hwhere & Heq1)].
  { exact Hsame. }
  rewrite Heq1. rewrite Hb1 in Hb1'. rewrite Hsol1 in Hsol1'.
  destruct Hwhere as [Hsel1'|[Hsel1' _]]; rewrite Hsel1 in Hsel1'; [|done].
  simplify_eq. fold x. rewrite (put_same _ _ _ _ Hx), Herr1.
  rewrite counted_same. by apply (commit_playing_same _ _ _ s sol1).
Qed.

Lemma input_twice_witness :
  reachable demo_session
  ∧ handleNumberInput (Some 7) (handleNumberInput (Some 7) demo_session)
    = handleNumberInput (Some 7) demo_session.
Proof.
  split; [exact demo_reachable|]. exact (input_twice demo_session (Some 7) demo_reachable).
Defined.

(** X17: the status changes in three ways only: a new game sets it to
    [playing], Change Difficulty sets it to [menu], and an input while
    playing may set it to [solved]; every other event, and every input
    in [menu] or [solved], leaves it as it is. *)
Theorem status_changes (s : Session) (e : Event) :
  status (step s e) = status s
  ∨ (e = ClickStart ∧ status (step s e) = playing)
  ∨ (e = ClickChangeDifficulty ∧ status (step s e) = menu)
  ∨ (status s = playing ∧ status (step s e) = solved
     ∧ ((∃ d, e = ClickPad d) ∨ e = ClickErase ∨ ∃ key, e = KeyDown key)).
Proof.
  assert (Hcommit : ∀ nb sel errs,
    status (commit nb sel errs s) = status s ∨ status (commit nb sel errs s) = solved).
  { intros nb sel errs. unfold commit. cbn [status].
    destruct (solution s) as [sol|]; [|by left]. destruct (checkWin sol nb); auto. }
  assert (Hinput : ∀ num,
    status (handleNumberInput num s) = status s
    ∨ status s = playing ∧ status (handleNumberInput num s) = solved).
  { intros num. destruct (handleNumberInput_counts num s)
      as [->|(Hst & nb & sel & errs & -> & _)]; [by left|].
    destruct (Hcommit nb sel errs); auto. }
  destruct e; cbn [step].
  - right. left. split; [done|].
    by destruct (startGame_playing (difficulty s) s) as (sol & -> & _).
  - right. right. left. done.
  - by left.
  - by left.
  - destruct (Hinput (Some digit)) as [?|[? ?]]; [by left|]. right. right. right.
    split_and!; eauto.
  - destruct (selectedCell s); [|by left].
    destruct (Hinput None) as [?|[? ?]]; [by left|]. right. right. right.
    split_and!; eauto.
  - destruct (handleKeyDown_counts key s)
      as [->|[[p ->]|(Hst & nb & sel & errs & Heq & _)]]; [by left|by left|].
    rewrite Heq. destruct (Hcommit nb sel errs); [by left|]. right. right. right.
    split_and!; eauto.
  - by left.
Qed.

Lemma parseInt_range ch n : parseInt (Some ch) = Num n → 0 ≤ n ≤ 9.
Proof.
  unfold parseInt.
  destruct ((48 <=? nat_of_ascii ch)%nat && (nat_of_ascii ch <=? 57)%nat) eqn:Hdigit;
    [|done].
  apply andb_true_iff in Hdigit as [H48%Nat.leb_le H57%Nat.leb_le].
  intros [= <-]. lia.
Qed.

(** The inputs a key can make: an erase or a digit 1..9. *)
Lemma handleKeyDown_input key s :
  handleKeyDown key s = s
  ∨ (∃ p, handleKeyDown key s = setSelectedCell p s)
  ∨ ∃ num, (num = None ∨ ∃ n, num = Some n ∧ 1 ≤ n ≤ 9)
      ∧ handleKeyDown key s = handleNumberInput num s.
Proof.
  unfold handleKeyDown.
  destruct (status s) eqn:Hst; [by left| |by left].
  destruct (selectedCell s) as [[r c]|] eqn:Hsel; [|by left].
  destruct key; try (by left); try (right; left; by eexists);
    try (right; right; exists None; split; [by left|done]).
  destruct (parseInt (Some ch)) as [n|] eqn:Hparse; [|by left].
  destruct (n =? 0) eqn:Hn; [by left|]. right. right. exists (Some n).
  split; [|done]. right. exists n. split; [done|].
  apply parseInt_range in Hparse. apply Z.eqb_neq in Hn. lia.
Qed.

Lemma handleNumberInput_digits num s b :
  session_inv s → (num = None ∨ ∃ n, num = Some n ∧ 1 ≤ n ≤ 9) →
  (∀ b0, board s = Some b0 → digits_only b0) →
  board (handleNumberInput num s) = Some b → digits_only b.
Proof.
  intros Hinv Hnum Hdigits.
  destruct (handleNumberInput_effect num s Hinv)
    as [->|(b0 & sol & r0 & c0 & cell0 & _ & Hb0 & _ & Hat0 & _ & _ & ->)];
    [by apply Hdigits|].
  unfold commit. cbn [board]. intros [= <-] r c cell.
  destruct (decide ((r0, c0) = (r, c))) as [[= <- <-]|Hne].
  - rewrite at_put_eq by (by rewrite Hat0). intros [= <-]. unfold written.
    destruct Hnum as [->|(n & -> & Hn)]; [by left|right]. by exists n.
  - rewrite at_put_ne by done. by apply (Hdigits b0).
Qed.

Lemma digits_onlyb_digits (b : Board) : digits_onlyb b = true → digits_only b.
Proof.
  unfold digits_onlyb, digits_only, at_. rewrite forallb_forall. intros Hall r c cell.
  destruct (b !! r) as [line|] eqn:Hline; [|done]. intros Hcell.
  assert (Hin : In line b) by (apply list_elem_of_In, list_elem_of_lookup; eauto).
  specialize (Hall line Hin). rewrite forallb_forall in Hall.
  assert (Hin' : In cell line) by (apply list_elem_of_In, list_elem_of_lookup; eauto).
  specialize (Hall cell Hin'). unfold digit_cell in Hall.
  destruct (value cell) as [[v|]|]; [|done|by left].
  right. exists v. split; [done|]. lia.
Qed.

Lemma loaded_digits diff : digits_only (fill_puzzle (PUZZLES diff) blank).
Proof. apply digits_onlyb_digits. by destruct diff; vm_compute. Qed.

Lemma reachable_digits s :
  reachable s → ∀ b, board s = Some b → digits_only b.
Proof.
  induction 1 as [|s e Hreach IH He]; [by intros b [=]|].
  pose proof (reachable_inv s Hreach) as Hinv. intros b.
  destruct e; cbn [step].
  - destruct (startGame_playing (difficulty s) s) as (sol & -> & _).
    cbn [board]. intros [= <-]. apply loaded_digits.
  - apply IH.
  - apply IH.
  - apply IH.
  - destruct He as [_ Hd]. apply handleNumberInput_digits; [done| |done].
    right. by exists digit.
  - destruct (selectedCell s); [|by apply IH].
    apply handleNumberInput_digits; [done|by left|done].
  - destruct (handleKeyDown_input key s) as [->|[[p ->]|(num & Hnum & ->)]];
      [by apply IH|by apply IH|]. by apply handleNumberInput_digits.
  - apply IH.
Qed.

(** X18: in every reachable session each cell of the board is empty or
    holds a digit 1..9: the pad offers 1..9, the keyboard handler lets
    through the keys 1..9 only, and the three definitions give digits
    1..9. *)
Theorem board_holds_digits (s : Session) (b : Board) (r c : nat) (cell : Cell) :
  reachable s → board s = Some b → at_ b r c = Some cell →
  value cell = None ∨ ∃ v, value cell = Some (Num v) ∧ 1 ≤ v ≤ 9.
Proof. intros Hreach Hb. by apply (reachable_digits s Hreach b Hb). Qed.

Lemma board_holds_digits_witness :
  reachable demo_session ∧ board demo_session = Some demo_board
  ∧ at_ demo_board 0 0 = Some (mkCell (Some (Num 9)) false true)
  ∧ (value (mkCell (Some (Num 9)) false true) = None
     ∨ ∃ v, value (mkCell (Some (Num 9)) false true) = Some (Num v) ∧ 1 ≤ v ≤ 9).
Proof.
  assert (Hb : board demo_session = Some demo_board) by (vm_compute; reflexivity).
  assert (Hat : at_ demo_board 0 0 = Some (mkCell (Some (Num 9)) false true))
    by (vm_compute; reflexivity).
  split; [exact demo_reachable|]. split; [exact Hb|]. split; [exact Hat|].
  exact (board_holds_digits demo_session demo_board 0 0 _ demo_reachable Hb Hat).
Defined.

(** X19: in a reachable session, entering a digit in a selected empty
    cell and erasing it gives the board back, unless the digit completed
    the puzzle: the selection stays, and the error count keeps the error
    a wrong digit added. *)
Theorem enter_then_erase (s : Session) (b : Board) (sol : Grid) (r c : nat) (n : Z) :
  reachable s → status s = playing → board s = Some b → solution s = Some sol →
  selectedCell s = Some (mkPosition r c) →
  at_ b r c = Some (mkCell None false false) →
  status (handleNumberInput (Some n) s) = playing →
  board (handleNumberInput None (handleNumberInput (Some n) s)) = Some b
  ∧ selectedCell (handleNumberInput None (handleNumberInput (Some n) s))
    = Some (mkPosition r c)
  ∧ errors (handleNumberInput None (handleNumberInput (Some n) s))
    = (if holds sol r c n then errors s else S (errors s)).
Proof.
  intros Hreach Hst Hb Hsol Hsel Hat Hst1.
  pose proof (reachable_inv s Hreach) as Hinv.
  pose proof (handleNumberInput_inv (Some n) s Hinv) as Hinv1.
  assert (Hgrid : grid9 b).
  { unfold session_inv in Hinv. rewrite Hb, Hsol in Hinv. by destruct Hinv. }
  assert (Hjson : json_copy b = b).
  { unfold session_inv in Hinv. rewrite Hb, Hsol in Hinv. destruct Hinv as [_ Hall].
    by apply (fresh_json_copy sol). }
  destruct (handleNumberInput_written s b sol r c (mkCell None false false) (Some n))
    as (Hb1 & Hsol1 & Hsel1 & Hgrid1 & Hat1 & _ & Herr1); try done.
  destruct (handleNumberInput_written (handleNumberInput (Some n) s) _ sol r c _ None
              Hst1 Hb1 Hsol1 Hgrid1 Hsel1 Hat1 eq_refl)
    as (Hb2 & _ & Hsel2 & _ & _ & _ & Herr2).
  rewrite Hb2, Hsel2, Herr2, Herr1. cbn [isInvalid negb andb].
  split; [|split; [done|by destruct (holds sol r c n)]].
  f_equal. rewrite Hjson.
  assert (Hall1 : json_copy (put b r c (mkCell (Some (Num n)) false (negb (holds sol r c n))))
                  = put b r c (mkCell (Some (Num n)) false (negb (holds sol r c n)))).
  { unfold session_inv in Hinv1. rewrite Hb1, Hsol1, Hjson in Hinv1.
    destruct Hinv1 as [_ Hall1]. by apply (fresh_json_copy sol). }
  rewrite Hall1, put_put. by apply put_same.
Qed.

Lemma enter_then_erase_witness :
  reachable (step started (ClickCell 0 0))
  ∧ status (step started (ClickCell 0 0)) = playing
  ∧ board (step started (ClickCell 0 0)) = Some (fill_puzzle (PUZZLES easy) blank)
  ∧ solution (step started (ClickCell 0 0)) = Some easy_completion
  ∧ selectedCell (step started (ClickCell 0 0)) = Some (mkPosition 0 0)
  ∧ at_ (fill_puzzle (PUZZLES easy) blank) 0 0 = Some (mkCell None false false)
  ∧ status (handleNumberInput (Some 9) (step started (ClickCell 0 0))) = playing
  ∧ board (handleNumberInput None
             (handleNumberInput (Some 9) (step started (ClickCell 0 0))))
    = Some (fill_puzzle (PUZZLES easy) blank).
Proof.
  assert (Hreach : reachable (step started (ClickCell 0 0))).
  { apply reachable_step; [exact started_reachable|].
    split; [done|]. split; [by eexists|]. lia. }
  assert (Hat : at_ (fill_puzzle (PUZZLES easy) blank) 0 0 = Some (mkCell None false false))
    by (vm_compute; reflexivity).
  assert (Hst : status (handleNumberInput (Some 9) (step started (ClickCell 0 0))) = playing)
    by (vm_compute; reflexivity).
  destruct (enter_then_erase (step started (ClickCell 0 0))
              (fill_puzzle (PUZZLES easy) blank) easy_completion 0 0 9
              Hreach eq_refl eq_refl eq_refl eq_refl Hat Hst) as (Hboard & _).
  split; [exact Hreach|]. split; [reflexivity|]. split; [reflexivity|].
  split; [reflexivity|]. split; [reflexivity|]. split; [exact Hat|].
  split; [exact Hst|exact Hboard].
Defined.
